(** * payshares/stellar-core: keys, seeds and the signature-verification cache

    A shallow embedding of [src/crypto/SecretKey.cpp] and
    [src/util/HashOfHash.cpp].

    Conventions.
    - A byte buffer ([uint256], [uint512], [Signature], [ByteSlice], a
      [std::vector<uint8_t>]) is a [list byte]; the fixed sizes of
      [uint256] (32) and [uint512] (64) are stated where a result depends
      on them.
    - [size_t] and [uint64_t] are [Z] with the wrap-around written out.
    - A function that can throw returns an [outcome]; a function that
      reads or writes the process-wide statics threads [Globals]; a
      function that prints threads the [ostream].
    - libsodium, the digest provider and the text codecs are external:
      they are fields of the classes [Sodium], [Digest] and [Codec]. *)

From Stdlib Require Import ZArith Strings.Byte Strings.Ascii.
From stdpp Require Import base tactics option list strings numbers sorting.

Local Open Scope Z_scope.

(** ** Bytes and machine integers *)

Abbreviation bytes := (list byte).

#[global] Instance byte_eq_dec : EqDecision byte := Byte.byte_eq_dec.

Definition byte_to_Z (b : byte) : Z := Z.of_N (Byte.to_N b).

Lemma byte_to_Z_range b : 0 <= byte_to_Z b < 256.
Proof.
  unfold byte_to_Z. pose proof (Byte.to_N_bounded b). lia.
Qed.

(** [size_t] on the 64-bit targets the node is built for. *)
Definition size_t_bits : Z := 64.
Definition wrap_size_t (z : Z) : Z := z mod 2 ^ size_t_bits.
Definition wrap_uint64 (z : Z) : Z := z mod 2 ^ 64.

(** ** Exceptions *)

Inductive exn :=
| runtime_error (what : string)
| invalid_argument (what : string)
| range_error (what : string).

Inductive outcome (A : Type) :=
| Ret (a : A)
| Throw (e : exn).
Arguments Ret {A} a.
Arguments Throw {A} e.

Definition obind {A B} (m : outcome A) (k : A → outcome B) : outcome B :=
  match m with
  | Ret a => k a
  | Throw e => Throw e
  end.

(** ** util/HashOfHash.cpp *)

Module HashOfHash.

(** [x[i]] on a [uint256]; the index is always in range in the source. *)
Definition at_ (x : bytes) (i : nat) : Z := byte_to_Z (nth i x Byte.x00).

(** [std::hash<payshares::uint256>::operator()] (HashOfHash.cpp, lines 6-14). *)
Definition hash_uint256 (x : bytes) : Z :=
  let res := wrap_size_t (at_ x 0) in
  let res := wrap_size_t (Z.lor (wrap_size_t (Z.shiftl res 8)) (at_ x 1)) in
  let res := wrap_size_t (Z.lor (wrap_size_t (Z.shiftl res 8)) (at_ x 2)) in
  let res := wrap_size_t (Z.lor (wrap_size_t (Z.shiftl res 8)) (at_ x 3)) in
  res.

End HashOfHash.

(** ** Key, seed and signature types *)

(** The XDR enum has the single member [PUBLIC_KEY_TYPE_ED25519], so the
    [assert(... == PUBLIC_KEY_TYPE_ED25519)] at the head of most functions
    holds for every value of the type. *)
Inductive PublicKeyType := PUBLIC_KEY_TYPE_ED25519.

#[global] Instance PublicKeyType_eq_dec : EqDecision PublicKeyType.
Proof. solve_decision. Defined.

Record PublicKey := mkPublicKey {
  pk_type : PublicKeyType;
  ed25519 : bytes            (* uint256 *)
}.

Record SecretKey := mkSecretKey {
  mKeyType : PublicKeyType;
  mSecretKey : bytes         (* uint512 *)
}.

Record Seed := mkSeed {
  seed_mKeyType : PublicKeyType;
  mSeed : bytes              (* uint256 *)
}.

Definition crypto_sign_PUBLICKEYBYTES : nat := 32.
Definition crypto_sign_SEEDBYTES : nat := 32.
Definition crypto_sign_SECRETKEYBYTES : nat := 64.
Definition crypto_sign_BYTES : nat := 64.

(** A default-constructed [uint256] / [uint512]: all zero. *)
Definition uint256_zero : bytes := replicate 32 Byte.x00.
Definition uint512_zero : bytes := replicate 64 Byte.x00.

(** [SecretKey::SecretKey()]. *)
Definition SecretKey_new : SecretKey :=
  {| mKeyType := PUBLIC_KEY_TYPE_ED25519; mSecretKey := uint512_zero |}.

(** The destructors [SecretKey::~SecretKey] and [SecretKey::Seed::~Seed]
    (lines 61-69) are not modelled: their [std::memset] is the last store
    to an object whose lifetime ends, and whether it reaches the storage
    is decided by the compiler, which functions on byte lists do not
    express. *)

(** [SecretKey::isZero] (lines 115-126). *)
Fixpoint all_zero (l : bytes) : bool :=
  match l with
  | [] => true
  | i :: l' => if decide (i = Byte.x00) then all_zero l' else false
  end.

Definition isZero (sk : SecretKey) : bool := all_zero (mSecretKey sk).

(** ** The signature primitive (libsodium) *)

(** What the library computes is a parameter: the Ed25519 public key of a
    seed, the verdict of a detached verification, and the status each call
    reports (0 on success). *)
Class Sodium := {
  ed25519_pk_of_seed : bytes → bytes;
  seed_keypair_status : bytes → Z;
  sk_to_seed_status : bytes → Z;
  sk_to_pk_status : bytes → Z;
  crypto_sign_verify_detached : bytes → bytes → bytes → Z
    (* signature, message, public key *)
}.

Section SodiumLayout.
Context `{Sodium}.

(** Modelled from the spec: libsodium's [crypto_sign_seed_keypair], which
    is not part of this repository.  The secret key it writes is in the
    expanded format of the data model, "seed + derived public key". *)
Definition crypto_sign_seed_keypair (seed : bytes) : Z * bytes * bytes :=
  let pk := ed25519_pk_of_seed (take 32 seed) in
  (seed_keypair_status seed, pk, take 32 seed ++ pk).

(** Modelled from the spec: libsodium's [crypto_sign_ed25519_sk_to_seed],
    the seed half of the expanded secret key. *)
Definition crypto_sign_ed25519_sk_to_seed (sk : bytes) : Z * bytes :=
  (sk_to_seed_status sk, take 32 sk).

(** Modelled from the spec: libsodium's [crypto_sign_ed25519_sk_to_pk],
    the public-key half of the expanded secret key. *)
Definition crypto_sign_ed25519_sk_to_pk (sk : bytes) : Z * bytes :=
  (sk_to_pk_status sk, take 32 (drop 32 sk)).

End SodiumLayout.

(** ** Key derivation: crypto/SecretKey.cpp *)

Section Derivation.
Context `{Sodium}.

(** [SecretKey::getPublicKey] (lines 71-84). *)
Definition getPublicKey (sk : SecretKey) : outcome PublicKey :=
  let '(rc, out) := crypto_sign_ed25519_sk_to_pk (mSecretKey sk) in
  if decide (rc ≠ 0)
  then Throw (runtime_error "error extracting public key from secret key")
  else Ret {| pk_type := PUBLIC_KEY_TYPE_ED25519; ed25519 := out |}.

(** [SecretKey::getSeed] (lines 86-99). *)
Definition getSeed (sk : SecretKey) : outcome Seed :=
  let '(rc, out) := crypto_sign_ed25519_sk_to_seed (mSecretKey sk) in
  if decide (rc ≠ 0)
  then Throw (runtime_error "error extracting seed from secret key")
  else Ret {| seed_mKeyType := mKeyType sk; mSeed := out |}.

(** [SecretKey::fromSeed] (lines 155-172). *)
Definition fromSeed (seed : bytes) : outcome SecretKey :=
  if decide (length seed ≠ crypto_sign_SEEDBYTES)
  then Throw (runtime_error "seed does not match byte size")
  else
    let '(rc, _, sk_bytes) := crypto_sign_seed_keypair seed in
    if decide (rc ≠ 0)
    then Throw (runtime_error "error generating secret key from seed")
    else Ret {| mKeyType := PUBLIC_KEY_TYPE_ED25519; mSecretKey := sk_bytes |}.

End Derivation.

(** ** Stateful code that can throw *)

(** A computation over a state [S] (the process-wide statics, or an output
    stream): it ends normally or by an exception, and leaves a state either
    way. *)
Definition M (S A : Type) : Type := S → outcome A * S.

#[global] Instance M_ret {S} : MRet (M S) := λ A a s, (Ret a, s).
#[global] Instance M_bind {S} : MBind (M S) := λ A B k m s,
  match m s with
  | (Ret a, s') => k a s'
  | (Throw e, s') => (Throw e, s')
  end.

(** A pure computation that can throw, run inside a stateful one. *)
Definition lift {S A} (o : outcome A) : M S A := λ s, (o, s).
Definition modify {S} (f : S → S) : M S unit := λ s, (Ret tt, f s).

(** [try { body } catch (...) { }]: the exception is dropped, the state the
    body reached is kept; [true] when the body ran to its end. *)
Definition try_catch_all {S} (body : M S unit) : M S bool := λ s,
  match body s with
  | (Ret _, s') => (Ret true, s')
  | (Throw _, s') => (Ret false, s')
  end.

(** A scope with a cleanup that runs on every way out of it (a local whose
    destructor does the cleanup). *)
Definition scoped {S A} (enter leave : S → S) (body : M S A) : M S A := λ s,
  let '(r, s') := body (enter s) in (r, leave s').

(** ** The digest provider *)

Class Digest := { sha256 : bytes → bytes }.

(** Modelled from the spec: crypto/SHA.h is not under src/.  The digest
    provider has a "reset/add-bytes/finish interface producing a fixed
    32-byte digest"; the object holds the bytes added since the last reset. *)
Record SHA256 := mkSHA256 { sha_added : bytes }.

(** Modelled from the spec: [SHA256::create], a hasher with nothing added. *)
Definition SHA256_create : SHA256 := {| sha_added := [] |}.

(** Modelled from the spec: [SHA256::reset]. *)
Definition SHA256_reset (h : SHA256) : SHA256 := {| sha_added := [] |}.

(** Modelled from the spec: [SHA256::add]. *)
Definition SHA256_add (b : bytes) (h : SHA256) : SHA256 :=
  {| sha_added := sha_added h ++ b |}.

(** Modelled from the spec: [SHA256::finish], the digest of the bytes added
    since the last reset. *)
Definition SHA256_finish `{Digest} (h : SHA256) : bytes * SHA256 :=
  (sha256 (sha_added h), h).

(** ** The verification cache: util/lrucache.hpp *)

(** util/lrucache.hpp is not under src/; [cache::lru_cache] is modelled from
    section 4.3 of the spec and from its uses in [SecretKey.cpp]
    ([exists], [get], [put], [clear]). *)
Module cache.
Section lru.
Context {K V : Type} `{EqDecision K}.

(** Modelled from the spec: util/lrucache.hpp is not under src/.  "A
    bounded associative store, capacity fixed at construction [...]
    enforcing strict least-recently-used eviction once at capacity:
    inserting beyond capacity evicts the entry that was least recently
    read-or-written".  The entries are kept most recently used first. *)
Record lru_cache := mk_lru_cache {
  max_size : Z;
  items : list (K * V)
}.

(** Modelled from the spec: the constructor, "capacity fixed at
    construction". *)
Definition new (n : Z) : lru_cache := {| max_size := n; items := [] |}.

Fixpoint find (k : K) (l : list (K * V)) : option V :=
  match l with
  | [] => None
  | (k', v) :: l' => if decide (k' = k) then Some v else find k l'
  end.

Definition erase (k : K) (l : list (K * V)) : list (K * V) :=
  filter (λ kv, kv.1 ≠ k) l.

Definition pop_back (l : list (K * V)) : list (K * V) :=
  take (length l - 1) l.

Definition size (c : lru_cache) : Z := Z.of_nat (length (items c)).

(** Modelled from the spec: [exists], a membership test; it does not count
    as a use. *)
Definition exists_ (k : K) (c : lru_cache) : bool :=
  match find k (items c) with Some _ => true | None => false end.

(** Modelled from the spec: [get] ("lookup(key) -> Optional<bool>"), the
    value, and the entry becomes the most recently used; [None] (an
    exception in the caller) when the key is absent. *)
Definition get (k : K) (c : lru_cache) : option V * lru_cache :=
  match find k (items c) with
  | Some v =>
      (Some v, {| max_size := max_size c;
                  items := (k, v) :: erase k (items c) |})
  | None => (None, c)
  end.

(** Modelled from the spec: [put] ("insert(key, value)"); the entry becomes
    the most recently used, and "inserting beyond capacity evicts the entry
    that was least recently read-or-written". *)
Definition put (k : K) (v : V) (c : lru_cache) : lru_cache :=
  let l := (k, v) :: erase k (items c) in
  {| max_size := max_size c;
     items := if decide (max_size c < Z.of_nat (length l))
              then pop_back l else l |}.

(** Modelled from the spec: "an explicit clear() operation". *)
Definition clear (c : lru_cache) : lru_cache :=
  {| max_size := max_size c; items := [] |}.

End lru.
Arguments lru_cache : clear implicits.
End cache.

(** ** The process-wide statics *)

Inductive GlobalVar :=
| VerifySigCache | Hasher | VerifyCacheHit | VerifyCacheMiss.

#[global] Instance GlobalVar_eq_dec : EqDecision GlobalVar.
Proof. solve_decision. Defined.

(** One read or write of a static, with whether [gVerifySigCacheMutex] was
    held at that point. *)
Record Access := mkAccess { acc_var : GlobalVar; acc_locked : bool }.

#[global] Instance Access_eq_dec : EqDecision Access.
Proof. solve_decision. Defined.

Record Globals := mkGlobals {
  gVerifySigCacheMutex : bool;               (* held? *)
  gVerifySigCache : cache.lru_cache bytes bool;
  gHasher : SHA256;
  gVerifyCacheHit : Z;
  gVerifyCacheMiss : Z;
  gAccesses : list Access                    (* ghost: accesses so far *)
}.

(** The statics as their initialisers leave them (lines 30-34). *)
Definition globals_init : Globals :=
  {| gVerifySigCacheMutex := false;
     gVerifySigCache := cache.new 0xffff;
     gHasher := SHA256_create;
     gVerifyCacheHit := 0;
     gVerifyCacheMiss := 0;
     gAccesses := [] |}.

Definition set_mutex (b : bool) (g : Globals) : Globals :=
  mkGlobals b (gVerifySigCache g) (gHasher g) (gVerifyCacheHit g)
            (gVerifyCacheMiss g) (gAccesses g).
Definition set_cache (c : cache.lru_cache bytes bool) (g : Globals) : Globals :=
  mkGlobals (gVerifySigCacheMutex g) c (gHasher g) (gVerifyCacheHit g)
            (gVerifyCacheMiss g) (gAccesses g).
Definition set_hasher (h : SHA256) (g : Globals) : Globals :=
  mkGlobals (gVerifySigCacheMutex g) (gVerifySigCache g) h (gVerifyCacheHit g)
            (gVerifyCacheMiss g) (gAccesses g).
Definition set_hit (n : Z) (g : Globals) : Globals :=
  mkGlobals (gVerifySigCacheMutex g) (gVerifySigCache g) (gHasher g) n
            (gVerifyCacheMiss g) (gAccesses g).
Definition set_miss (n : Z) (g : Globals) : Globals :=
  mkGlobals (gVerifySigCacheMutex g) (gVerifySigCache g) (gHasher g)
            (gVerifyCacheHit g) n (gAccesses g).

(** Record an access of [v] under the current state of the mutex. *)
Definition touch (v : GlobalVar) (g : Globals) : Globals :=
  mkGlobals (gVerifySigCacheMutex g) (gVerifySigCache g) (gHasher g)
            (gVerifyCacheHit g) (gVerifyCacheMiss g)
            (gAccesses g ++ [mkAccess v (gVerifySigCacheMutex g)]).

(** [std::lock_guard<std::mutex> guard(gVerifySigCacheMutex)] around a
    scope. *)
Definition lock_guard {A} (body : M Globals A) : M Globals A :=
  scoped (set_mutex true) (set_mutex false) body.

Section Verification.
Context `{Sodium} `{Digest}.

Definition hasher_reset : M Globals unit :=
  modify (λ g, set_hasher (SHA256_reset (gHasher g)) (touch Hasher g)).
Definition hasher_add (b : bytes) : M Globals unit :=
  modify (λ g, set_hasher (SHA256_add b (gHasher g)) (touch Hasher g)).
Definition hasher_finish : M Globals bytes := λ g,
  let '(d, h) := SHA256_finish (gHasher g) in
  (Ret d, set_hasher h (touch Hasher g)).

(** [verifySigCacheKey] (lines 36-47). *)
Definition verifySigCacheKey (key : PublicKey) (signature bin : bytes)
  : M Globals bytes :=
  hasher_reset;;
  hasher_add (ed25519 key);;
  hasher_add signature;;
  hasher_add bin;;
  hasher_finish.

Definition cache_exists (k : bytes) : M Globals bool := λ g,
  (Ret (cache.exists_ k (gVerifySigCache g)), touch VerifySigCache g).

Definition cache_get (k : bytes) : M Globals bool := λ g,
  match cache.get k (gVerifySigCache g) with
  | (Some v, c) => (Ret v, set_cache c (touch VerifySigCache g))
  | (None, c) =>
      (Throw (range_error "There is no such key in cache"),
       set_cache c (touch VerifySigCache g))
  end.

Definition cache_put (k : bytes) (v : bool) : M Globals unit :=
  modify (λ g, set_cache (cache.put k v (gVerifySigCache g))
                         (touch VerifySigCache g)).

Definition incr_hit : M Globals unit :=
  modify (λ g, set_hit (wrap_uint64 (gVerifyCacheHit g + 1))
                       (touch VerifyCacheHit g)).
Definition incr_miss : M Globals unit :=
  modify (λ g, set_miss (wrap_uint64 (gVerifyCacheMiss g + 1))
                        (touch VerifyCacheMiss g)).

(** [PubKeyUtils::clearVerifySigCache] (lines 198-203). *)
Definition clearVerifySigCache : M Globals unit :=
  lock_guard
    (modify (λ g, set_cache (cache.clear (gVerifySigCache g))
                            (touch VerifySigCache g))).

(** [PubKeyUtils::flushVerifySigCacheCounts] (lines 205-213); the two
    reference parameters are the returned pair [(hits, misses)]. *)
Definition flushVerifySigCacheCounts : M Globals (Z * Z) :=
  lock_guard
    (hits ← (λ g, (Ret (gVerifyCacheHit g), touch VerifyCacheHit g));
     misses ← (λ g, (Ret (gVerifyCacheMiss g), touch VerifyCacheMiss g));
     modify (λ g, set_hit 0 (touch VerifyCacheHit g));;
     modify (λ g, set_miss 0 (touch VerifyCacheMiss g));;
     mret (hits, misses)).

(** [PubKeyUtils::verifySig] (lines 282-310).  The first locked block
    either returns the cached verdict ([Some]) or falls through ([None]);
    the miss counter is incremented between the two locked blocks. *)
Definition verifySig (key : PublicKey) (signature bin : bytes)
  : M Globals bool :=
  if decide (length signature ≠ 64%nat) then mret false
  else
    cacheKey ← verifySigCacheKey key signature bin;
    cached ← lock_guard
      (present ← cache_exists cacheKey;
       if (present : bool)
       then incr_hit;; v ← cache_get cacheKey; mret (Some v)
       else mret None);
    match cached with
    | Some v => mret v
    | None =>
        incr_miss;;
        let ok :=
          bool_decide
            (crypto_sign_verify_detached signature bin (ed25519 key) = 0) in
        lock_guard (cache_put cacheKey ok;; mret ok)
    end.

End Verification.

(** ** Text codecs and the diagnostic key dump *)

(** crypto/Hex.h, crypto/KeyUtils.h and crypto/PsrKey.h are not under
    src/; what [SecretKey.cpp] calls from them is taken as a parameter.
    A codec that throws returns [Throw]; [psrKey::fromPsrKey], which
    reports failure by returning [false], returns [None]. *)
Class Codec := {
  hexToBin256 : string → outcome bytes;
  binToHex : bytes → string;
  KeyUtils_toPsrKey : PublicKey → string;
  KeyUtils_fromPsrKey : string → outcome PublicKey;
  PSRKEY_SEED_ED25519 : Z;
  psrKey_toPsrKey : Z → bytes → string;
  psrKey_fromPsrKey : string → option (Z * bytes);
  psrKey_getPsrKeySize : nat → nat
}.

Abbreviation ostream := string.

Definition endl : string := String "010"%char EmptyString.

(** [s << x]. *)
Definition out (x : string) : M ostream unit := modify (λ s, s +:+ x).

Section KeyDump.
Context `{Sodium} `{Codec}.

(** [SecretKey::getPsrKeySeed] (lines 101-107); the result is the [value]
    of the [SecretValue]. *)
Definition getPsrKeySeed (sk : SecretKey) : outcome string :=
  obind (getSeed sk) (λ seed,
    Ret (psrKey_toPsrKey PSRKEY_SEED_ED25519 (mSeed seed))).

(** [SecretKey::getPsrKeyPublic] (lines 109-113). *)
Definition getPsrKeyPublic (sk : SecretKey) : outcome string :=
  obind (getPublicKey sk) (λ pk, Ret (KeyUtils_toPsrKey pk)).

(** [SecretKey::fromPsrKeySeed] (lines 174-196). *)
Definition fromPsrKeySeed (psrKeySeed : string) : outcome SecretKey :=
  match psrKey_fromPsrKey psrKeySeed with
  | None => Throw (runtime_error "invalid seed")
  | Some (ver, seed) =>
      if decide (ver ≠ PSRKEY_SEED_ED25519
                 ∨ length seed ≠ crypto_sign_SEEDBYTES
                 ∨ String.length psrKeySeed
                     ≠ psrKey_getPsrKeySize crypto_sign_SEEDBYTES)
      then Throw (runtime_error "invalid seed")
      else
        let '(rc, _, sk_bytes) := crypto_sign_seed_keypair seed in
        if decide (rc ≠ 0)
        then Throw (runtime_error "error generating secret key from seed")
        else Ret {| mKeyType := PUBLIC_KEY_TYPE_ED25519;
                    mSecretKey := sk_bytes |}
  end.

(** [logPublicKey] (lines 322-328). *)
Definition logPublicKey (pk : PublicKey) : M ostream unit :=
  out "PublicKey:";; out endl;;
  out "  psrKey: ";; out (KeyUtils_toPsrKey pk);; out endl;;
  out "  hex: ";; out (binToHex (ed25519 pk));; out endl.

(** [logSecretKey] (lines 330-336); the operands of [<<] are evaluated left
    to right. *)
Definition logSecretKey (sk : SecretKey) : M ostream unit :=
  out "Seed:";; out endl;;
  out "  psrKey: ";; v ← lift (getPsrKeySeed sk); out v;; out endl;;
  pk ← lift (getPublicKey sk);
  logPublicKey pk.

(** The three [try] blocks of [PsrKeyUtils::logKey] (lines 342-353,
    359-364 and 370-375), each without its final [return]. *)
Definition logKey_hex (key : string) : M ostream unit :=
  data ← lift (hexToBin256 key);
  logPublicKey {| pk_type := PUBLIC_KEY_TYPE_ED25519; ed25519 := data |};;
  sk ← lift (fromSeed data);
  logSecretKey sk.

Definition logKey_public (key : string) : M ostream unit :=
  pk ← lift (KeyUtils_fromPsrKey key);
  logPublicKey pk.

Definition logKey_seed (key : string) : M ostream unit :=
  sk ← lift (fromPsrKeySeed key);
  logSecretKey sk.

(** [PsrKeyUtils::logKey] (lines 338-380): each block ends in [return], so
    a block that runs to its end ends the function. *)
Definition logKey (key : string) : M ostream unit :=
  returned ← try_catch_all (logKey_hex key);
  if (returned : bool) then mret tt
  else
    returned ← try_catch_all (logKey_public key);
    if (returned : bool) then mret tt
    else
      returned ← try_catch_all (logKey_seed key);
      if (returned : bool) then mret tt
      else out "Unknown key type";; out endl.

End KeyDump.

(** [std::hash<payshares::PublicKey>::operator()] (SecretKey.cpp, lines
    393-399). *)
Definition hash_PublicKey (k : PublicKey) : Z :=
  HashOfHash.hash_uint256 (ed25519 k).

(** ** Histories *)

(** The operations a cache goes through, the most recent first, and the
    cache they build from its construction with capacity [n]. *)
Module history.
Section ops.
Context {K V : Type} `{EqDecision K}.

Inductive op :=
| Put (k : K) (v : V)
| Get (k : K)
| Exists (k : K)
| Clear.

Definition apply (o : op) (c : cache.lru_cache K V) : cache.lru_cache K V :=
  match o with
  | Put k v => cache.put k v c
  | Get k => (cache.get k c).2
  | Exists k => c
  | Clear => cache.clear c
  end.

Fixpoint replay (n : Z) (h : list op) : cache.lru_cache K V :=
  match h with
  | [] => cache.new n
  | o :: h' => apply o (replay n h')
  end.

(** [o] reads or writes the entry of [k]. *)
Definition uses (k : K) (o : op) : bool :=
  match o with
  | Put k' _ | Get k' => bool_decide (k' = k)
  | Exists _ | Clear => false
  end.

(** How many operations ago [k] was last read or written. *)
Fixpoint idle (h : list op) (k : K) : option nat :=
  match h with
  | [] => None
  | o :: h' => if uses k o then Some 0%nat else S <$> idle h' k
  end.

(** [k1] was read or written more recently than [k2]. *)
Definition fresher (h : list op) (k1 k2 : K) : Prop :=
  match idle h k1, idle h k2 with
  | Some a, Some b => (a < b)%nat
  | _, _ => False
  end.

(** Insert the entries of [kvs], first to last. *)
Definition puts (kvs : list (K * V)) (c : cache.lru_cache K V)
  : cache.lru_cache K V :=
  foldl (λ c kv, cache.put kv.1 kv.2 c) c kvs.

Definition puts_ops (kvs : list (K * V)) : list op :=
  reverse ((λ kv, Put kv.1 kv.2) <$> kvs).

(** The keys [ks] are listed from the most to the least recently used,
    and each of them has been used. *)
Definition ordered (h : list op) (ks : list K) : Prop :=
  StronglySorted (fresher h) ks ∧ Forall (λ k, is_Some (idle h k)) ks.

End ops.
Arguments op : clear implicits.
End history.

(** The calls a process makes on the verification statics, in order, and
    the statics they leave. *)
Inductive call :=
| CallVerifySig (key : PublicKey) (signature bin : bytes)
| CallClear
| CallFlush.

Section Runs.
Context `{Sodium} `{Digest}.

Definition exec (g : Globals) (c : call) : Globals :=
  match c with
  | CallVerifySig key signature bin => (verifySig key signature bin g).2
  | CallClear => (clearVerifySigCache g).2
  | CallFlush => (flushVerifySigCacheCounts g).2
  end.

Definition run (calls : list call) : Globals := foldl exec globals_init calls.

(** What [verifySigCacheKey] feeds the hasher, and what it returns. *)
Definition preimage (key : PublicKey) (signature bin : bytes) : bytes :=
  ed25519 key ++ signature ++ bin.
Definition digest_of (key : PublicKey) (signature bin : bytes) : bytes :=
  sha256 (preimage key signature bin).

(** The uncached verification: the primitive called directly. *)
Definition verifyDetached (key : PublicKey) (signature bin : bytes) : bool :=
  bool_decide (crypto_sign_verify_detached signature bin (ed25519 key) = 0).

(** The inputs hashed by the [verifySig] calls of a run. *)
Definition hashed (calls : list call) : list bytes :=
  omap (λ c, match c with
             | CallVerifySig key signature bin =>
                 if decide (length signature = 64%nat)
                 then Some (preimage key signature bin) else None
             | _ => None
             end) calls.

(** The digest tells the inputs in [L] apart. *)
Definition collision_free (L : list bytes) : Prop :=
  ∀ x y, x ∈ L → y ∈ L → sha256 x = sha256 y → x = y.

Definition well_formed (c : call) : Prop :=
  match c with
  | CallVerifySig key _ _ => length (ed25519 key) = 32%nat
  | _ => True
  end.

(** Every cached verdict is the verdict of an input among [T]. *)
Definition coherent (T : list bytes) (c : cache.lru_cache bytes bool) : Prop :=
  ∀ d b, (d, b) ∈ cache.items c →
    ∃ key signature bin,
      length (ed25519 key) = 32%nat ∧ length signature = 64%nat
      ∧ preimage key signature bin ∈ T
      ∧ digest_of key signature bin = d
      ∧ verifyDetached key signature bin = b.

End Runs.

(** All accesses happened with the mutex held. *)
Definition guarded (log : list Access) : Prop :=
  Forall (λ a, acc_locked a = true) log.

(** ** A small instance of the external interfaces

    Used to run the definitions on concrete inputs.  The "public key" of a
    seed is the seed reversed, a signature is valid when it starts with
    the message, and the digest is the byte sum over the input. *)
Module Toy.

Definition sum_bytes (l : bytes) : Z :=
  foldr (λ b acc, byte_to_Z b + acc) 0 l.

Definition byte_of_Z (z : Z) : byte :=
  default Byte.x00 (Byte.of_N (Z.to_N (z mod 256))).

#[export] Instance sodium : Sodium := {|
  ed25519_pk_of_seed := reverse;
  seed_keypair_status := λ _, 0;
  sk_to_seed_status := λ _, 0;
  sk_to_pk_status := λ _, 0;
  crypto_sign_verify_detached := λ signature bin pk,
    if decide (take (length bin) signature = bin) then 0 else -1
|}.

#[export] Instance digest : Digest := {|
  sha256 := λ l, byte_of_Z (sum_bytes l) :: replicate 31 Byte.x00
|}.

Definition key0 : PublicKey :=
  {| pk_type := PUBLIC_KEY_TYPE_ED25519; ed25519 := replicate 32 Byte.x00 |}.
Definition sig0 : bytes := replicate 64 Byte.x01.
Definition msg_good : bytes := [Byte.x01; Byte.x01].
Definition msg_bad : bytes := [Byte.x03].

#[export] Instance codec : Codec := {|
  hexToBin256 := λ key,
    if decide (key = "00") then Ret (replicate 32 Byte.x00)
    else Throw (invalid_argument "not a hex string");
  binToHex := λ _, "<hex>";
  KeyUtils_toPsrKey := λ _, "<public>";
  KeyUtils_fromPsrKey := λ key,
    if decide (key = "GKEY") then Ret key0
    else Throw (invalid_argument "bad public key");
  PSRKEY_SEED_ED25519 := 144;
  psrKey_toPsrKey := λ _ _, "<seed>";
  psrKey_fromPsrKey := λ key,
    if decide (key = "SEED") then Some (144, replicate 32 Byte.x01) else None;
  psrKey_getPsrKeySize := λ _, 4%nat
|}.

(** A run that verifies two inputs, with a flush in between. *)
Definition earlier_calls : list call :=
  [CallVerifySig key0 sig0 msg_good; CallFlush;
   CallVerifySig key0 sig0 msg_bad].

(** 65,536 distinct 32-byte digests, each with a verdict. *)
Definition nth_digest (i : Z) : bytes :=
  byte_of_Z (i / 256) :: byte_of_Z (i mod 256) :: replicate 30 Byte.x00.
Definition many_entries : list (bytes * bool) :=
  (λ i, (nth_digest i, true)) <$> seqZ 0 65536.

End Toy.

(** ** Further functions of crypto/SecretKey.cpp *)

(** Two enumerators from headers that are not under src/, as parameters:
    the version byte of an encoded public key ([psrKey::PsrKeyVersionByte]
    in crypto/PsrKey.h, a [uint8_t]) and the value of the enumerator
    [PUBLIC_KEY_TYPE_ED25519] of the XDR enum [PublicKeyType].  An argument
    of an enum type is the integer it holds, a [Z]: it need not be that of
    an enumerator, which is what the [default] branches are for. *)
Class PsrKeyVersions := {
  PSRKEY_PUBKEY_ED25519 : Z;
  PUBLIC_KEY_TYPE_ED25519_value : Z
}.

Module KeyFunctions_PublicKey.
Section fns.
Context `{PsrKeyVersions}.

(** [KeyFunctions<PublicKey>::getKeyTypeName] (lines 215-219). *)
Definition getKeyTypeName : string := "public key".

(** [KeyFunctions<PublicKey>::getKeyVersionIsSupported] (lines 221-232). *)
Definition getKeyVersionIsSupported (keyVersion : Z) : bool :=
  if decide (keyVersion = PSRKEY_PUBKEY_ED25519) then true else false.

(** [KeyFunctions<PublicKey>::toKeyType] (lines 234-244). *)
Definition toKeyType (keyVersion : Z) : outcome Z :=
  if decide (keyVersion = PSRKEY_PUBKEY_ED25519)
  then Ret PUBLIC_KEY_TYPE_ED25519_value
  else Throw (invalid_argument "invalid public key type").

(** [KeyFunctions<PublicKey>::toKeyVersion] (lines 246-256). *)
Definition toKeyVersion (keyType : Z) : outcome Z :=
  if decide (keyType = PUBLIC_KEY_TYPE_ED25519_value)
  then Ret PSRKEY_PUBKEY_ED25519
  else Throw (invalid_argument "invalid public key type").

End fns.
End KeyFunctions_PublicKey.

(** What libsodium's detached signing computes is a parameter: the
    signature of a message under a secret key, and the status of the
    call. *)
Class SodiumSign := {
  ed25519_sign : bytes → bytes → bytes;      (* message, secret key *)
  sign_status : bytes → bytes → Z
}.

Section Signing.
Context `{SodiumSign}.

(** Modelled from the spec: libsodium's [crypto_sign_detached], which is
    not part of this repository ("detached sign", a fixed-size-buffer
    API): the signature, of at most 64 bytes, is written at the start of
    the caller's buffer [out]. *)
Definition crypto_sign_detached (out m sk : bytes) : Z * bytes :=
  let written := take 64 (ed25519_sign m sk) in
  (sign_status m sk, written ++ drop (length written) out).

(** [SecretKey::sign] (lines 128-140). *)
Definition sign (sk : SecretKey) (bin : bytes) : outcome bytes :=
  let out := replicate crypto_sign_BYTES Byte.x00 in
  let '(rc, out) := crypto_sign_detached out bin (mSecretKey sk) in
  if decide (rc ≠ 0)
  then Throw (runtime_error "error while signing")
  else Ret out.

End Signing.

(** The number of [verifySig] calls with a 64-byte signature since the
    last flush of the counters. *)
Definition counted (calls : list call) : Z :=
  foldl (λ n c, match c with
                | CallVerifySig _ signature _ =>
                    if decide (length signature = 64%nat) then n + 1 else n
                | CallClear => n
                | CallFlush => 0
                end) 0 calls.

(** What [logPublicKey] prints for [pk]. *)
Definition publicKey_text `{Codec} (pk : PublicKey) : string :=
  "PublicKey:" +:+ endl +:+ "  psrKey: " +:+ KeyUtils_toPsrKey pk +:+ endl
    +:+ "  hex: " +:+ binToHex (ed25519 pk) +:+ endl.

(** A second instance of the external interfaces, with a text codec that
    decodes what it encodes: the text of a payload is the payload's bytes
    as characters. *)
Module Toy2.

#[export] Instance codec : Codec := {|
  hexToBin256 := λ key,
    if decide (String.length key = 32%nat) then Ret (Strings.String.list_byte_of_string key)
    else Throw (invalid_argument "not a hex string");
  binToHex := Strings.String.string_of_list_byte;
  KeyUtils_toPsrKey := λ pk, Strings.String.string_of_list_byte (ed25519 pk);
  KeyUtils_fromPsrKey := λ key,
    Throw (invalid_argument "bad public key");
  PSRKEY_SEED_ED25519 := 144;
  psrKey_toPsrKey := λ _ payload, Strings.String.string_of_list_byte payload;
  psrKey_fromPsrKey := λ key, Some (144, Strings.String.list_byte_of_string key);
  psrKey_getPsrKeySize := λ n, n
|}.

#[export] Instance versions : PsrKeyVersions := {|
  PSRKEY_PUBKEY_ED25519 := 48;
  PUBLIC_KEY_TYPE_ED25519_value := 0
|}.

#[export] Instance signer : SodiumSign := {|
  ed25519_sign := λ m sk, m ++ sk;
  sign_status := λ m _, if decide (m = []) then -1 else 0
|}.

Definition seed1 : bytes := Byte.x41 :: Byte.x42 :: replicate 30 Byte.x43.

End Toy2.

(** [m] only appends to the stream: its result and the text it adds do
    not depend on what the stream held. *)
Definition appends {A} (m : M ostream A) : Prop :=
  ∃ r text, ∀ s, m s = (r, s +:+ text).

(** [c] is not a [verifySig] call with a signature of the wrong length. *)
Definition well_sized (c : call) : bool :=
  match c with
  | CallVerifySig _ signature _ => bool_decide (length signature = 64%nat)
  | CallClear | CallFlush => true
  end.

(** * Properties *)

(** ** The hash of a [uint256] *)

Section HashFacts.
Import HashOfHash.

Lemma at_lookup (x y : bytes) (i : nat) :
  x !! i = y !! i → at_ x i = at_ y i.
Proof.
  intros E. unfold at_. by rewrite !nth_lookup, E.
Qed.

(** The hash is the big-endian number made of the first four bytes. *)
Lemma hash_uint256_closed_form (x : bytes) :
  hash_uint256 x
  = at_ x 0 * 2 ^ 24 + at_ x 1 * 2 ^ 16 + at_ x 2 * 2 ^ 8 + at_ x 3.
Proof.
  unfold hash_uint256, at_, wrap_size_t, size_t_bits.
  pose proof (byte_to_Z_range (nth 0 x Byte.x00)) as H0.
  pose proof (byte_to_Z_range (nth 1 x Byte.x00)) as H1.
  pose proof (byte_to_Z_range (nth 2 x Byte.x00)) as H2.
  pose proof (byte_to_Z_range (nth 3 x Byte.x00)) as H3.
  set (a := byte_to_Z (nth 0 x Byte.x00)) in *.
  set (b := byte_to_Z (nth 1 x Byte.x00)) in *.
  set (c := byte_to_Z (nth 2 x Byte.x00)) in *.
  set (d := byte_to_Z (nth 3 x Byte.x00)) in *.
  assert (Hlor : ∀ u v, 0 <= u → 0 <= v < 256 →
                        Z.lor (Z.shiftl u 8) v = u * 2 ^ 8 + v).
  { intros u v Hu Hv. rewrite Z.shiftl_mul_pow2 by lia.
    rewrite <- Z.add_nocarry_lor; [done|].
    apply Z.bits_inj'. intros n Hn. rewrite Z.land_spec, Z.bits_0.
    destruct (decide (n < 8)) as [Hlt|Hge].
    - rewrite Z.mul_pow2_bits_low by lia. done.
    - rewrite andb_comm.
      replace (Z.testbit v n) with false; [done|].
      symmetry. destruct (decide (v = 0)) as [->|]; [apply Z.bits_0|].
      apply Z.bits_above_log2; [lia|].
      assert (Z.log2 v < 8) by (apply Z.log2_lt_pow2; lia). lia. }
  rewrite (Z.mod_small a) by lia.
  rewrite (Z.mod_small (Z.shiftl a 8)) by (rewrite Z.shiftl_mul_pow2; lia).
  rewrite (Hlor a b) by lia.
  rewrite (Z.mod_small (a * 2 ^ 8 + b)) by lia.
  rewrite (Z.mod_small (Z.shiftl (a * 2 ^ 8 + b) 8))
    by (rewrite Z.shiftl_mul_pow2; lia).
  rewrite (Hlor (a * 2 ^ 8 + b) c) by lia.
  rewrite (Z.mod_small ((a * 2 ^ 8 + b) * 2 ^ 8 + c)) by lia.
  rewrite (Z.mod_small (Z.shiftl ((a * 2 ^ 8 + b) * 2 ^ 8 + c) 8))
    by (rewrite Z.shiftl_mul_pow2; lia).
  rewrite (Hlor ((a * 2 ^ 8 + b) * 2 ^ 8 + c) d) by lia.
  rewrite Z.mod_small by lia. lia.
Qed.

End HashFacts.

(** C10.  The standard hash of a 32-byte [uint256], and so of a
    [PublicKey], is a function of its first four bytes: two values that
    agree on bytes 0 to 3 have the same hash, whatever the other 28 bytes
    are. *)
Theorem hash_uint256_first_four_bytes (x y : bytes) :
  length x = 32%nat → length y = 32%nat →
  x !! 0%nat = y !! 0%nat → x !! 1%nat = y !! 1%nat →
  x !! 2%nat = y !! 2%nat → x !! 3%nat = y !! 3%nat →
  HashOfHash.hash_uint256 x = HashOfHash.hash_uint256 y
  ∧ hash_PublicKey (mkPublicKey PUBLIC_KEY_TYPE_ED25519 x)
    = hash_PublicKey (mkPublicKey PUBLIC_KEY_TYPE_ED25519 y).
Proof.
  intros _ _ E0 E1 E2 E3.
  assert (HashOfHash.hash_uint256 x = HashOfHash.hash_uint256 y) as E.
  { rewrite !hash_uint256_closed_form.
    by rewrite (at_lookup x y 0), (at_lookup x y 1),
               (at_lookup x y 2), (at_lookup x y 3). }
  split; [exact E | exact E].
Qed.

(** Two keys that differ in every byte after the fourth collide. *)
Lemma hash_uint256_first_four_bytes_witness :
  let x := [Byte.x01; Byte.x02; Byte.x03; Byte.x04] ++ replicate 28 Byte.x00 in
  let y := [Byte.x01; Byte.x02; Byte.x03; Byte.x04] ++ replicate 28 Byte.xff in
  x ≠ y
  ∧ HashOfHash.hash_uint256 x = 0x01020304
  ∧ (HashOfHash.hash_uint256 x = HashOfHash.hash_uint256 y
     ∧ hash_PublicKey (mkPublicKey PUBLIC_KEY_TYPE_ED25519 x)
       = hash_PublicKey (mkPublicKey PUBLIC_KEY_TYPE_ED25519 y)).
Proof.
  intros x y. split; [discriminate|]. split; [reflexivity|].
  apply (hash_uint256_first_four_bytes x y); reflexivity.
Defined.

(** ** Zero buffers *)

Lemma all_zero_replicate (n : nat) : all_zero (replicate n Byte.x00) = true.
Proof.
  induction n as [|n IH]; [done|].
  cbn [replicate all_zero]. by rewrite decide_True.
Qed.

(** ** Construction from a seed *)

Section DerivationFacts.
Context `{Sodium}.

Lemma fromSeed_ok (seed : bytes) :
  length seed = 32%nat → seed_keypair_status seed = 0 →
  fromSeed seed
  = Ret (mkSecretKey PUBLIC_KEY_TYPE_ED25519
                     (seed ++ ed25519_pk_of_seed seed)).
Proof.
  intros Hlen Hrc. unfold fromSeed, crypto_sign_seed_keypair.
  rewrite decide_False by (unfold crypto_sign_SEEDBYTES; lia).
  rewrite decide_False by lia.
  by rewrite (take_ge seed 32) by lia.
Qed.

Lemma fromSeed_bad_length (seed : bytes) :
  length seed ≠ 32%nat →
  fromSeed seed = Throw (runtime_error "seed does not match byte size").
Proof.
  intros Hlen. unfold fromSeed. by rewrite decide_True.
Qed.

End DerivationFacts.

(** C4.  With the primitive reporting success, [fromSeed] fails exactly
    when the seed is not 32 bytes long, and then with the seed-size error;
    on a 32-byte seed it returns the key made of the seed and its public
    key, and the public key derived from it is a function of the seed, so
    equal seeds give equal secret keys and equal public keys. *)
Theorem fromSeed_fails_iff_wrong_length `{Sodium} (seed seed' : bytes) :
  seed_keypair_status seed = 0 →
  ((∃ e, fromSeed seed = Throw e) ↔ length seed ≠ 32%nat)
  ∧ (length seed ≠ 32%nat →
     fromSeed seed = Throw (runtime_error "seed does not match byte size"))
  ∧ (length seed = 32%nat →
     fromSeed seed
     = Ret (mkSecretKey PUBLIC_KEY_TYPE_ED25519
                        (seed ++ ed25519_pk_of_seed seed))
     ∧ (sk_to_pk_status (seed ++ ed25519_pk_of_seed seed) = 0 →
        obind (fromSeed seed) getPublicKey
        = Ret (mkPublicKey PUBLIC_KEY_TYPE_ED25519
                           (take 32 (ed25519_pk_of_seed seed)))))
  ∧ (seed' = seed →
     fromSeed seed' = fromSeed seed
     ∧ obind (fromSeed seed') getPublicKey
       = obind (fromSeed seed) getPublicKey).
Proof.
  intros Hrc. split_and!.
  - split.
    + intros [e He] Hlen. rewrite fromSeed_ok in He by done. discriminate.
    + intros Hlen. eexists. by apply fromSeed_bad_length.
  - apply fromSeed_bad_length.
  - intros Hlen. split; [by apply fromSeed_ok|].
    intros Hpk. rewrite fromSeed_ok by done. simpl.
    unfold getPublicKey, crypto_sign_ed25519_sk_to_pk. simpl.
    rewrite decide_False by lia.
    by rewrite drop_app_length' by done.
  - by intros ->.
Qed.

Section fromSeed_example.
Import Toy.

Lemma fromSeed_fails_iff_wrong_length_witness :
  let seed := replicate 32 Byte.x07 in
  seed_keypair_status seed = 0
  ∧ fromSeed (replicate 31 Byte.x07)
    = Throw (runtime_error "seed does not match byte size")
  ∧ fromSeed seed
    = Ret (mkSecretKey PUBLIC_KEY_TYPE_ED25519 (replicate 64 Byte.x07)).
Proof.
  intros seed. split; [reflexivity|].
  split; [reflexivity|].
  exact (proj1 (proj1 (proj2 (proj2
    (fromSeed_fails_iff_wrong_length seed seed eq_refl))) eq_refl)).
Defined.

End fromSeed_example.

(** C5.  For a 32-byte seed [s] (and the primitive reporting success on
    the two calls made), the seed extracted from the key built from [s] is
    [s]. *)
Theorem getSeed_fromSeed `{Sodium} (s : bytes) :
  length s = 32%nat →
  seed_keypair_status s = 0 →
  sk_to_seed_status (s ++ ed25519_pk_of_seed s) = 0 →
  obind (fromSeed s) getSeed = Ret (mkSeed PUBLIC_KEY_TYPE_ED25519 s).
Proof.
  intros Hlen Hrc Hrc'. rewrite fromSeed_ok by done. simpl.
  unfold getSeed, crypto_sign_ed25519_sk_to_seed. simpl.
  rewrite decide_False by lia.
  by rewrite take_app_length' by done.
Qed.

Section getSeed_example.
Import Toy.

Lemma getSeed_fromSeed_witness :
  let s := Byte.x01 :: Byte.x02 :: replicate 30 Byte.x03 in
  obind (fromSeed s) getSeed = Ret (mkSeed PUBLIC_KEY_TYPE_ED25519 s).
Proof.
  intros s. apply (getSeed_fromSeed s); reflexivity.
Defined.

End getSeed_example.

(** ** The cache *)

Section CacheFacts.
Context {K V : Type} `{EqDecision K}.
Implicit Types (c : cache.lru_cache K V) (l : list (K * V)) (k : K) (v : V).

Lemma find_Some_elem k v l : cache.find k l = Some v → (k, v) ∈ l.
Proof.
  induction l as [|[k' v'] l IH]; [done|]. simpl.
  case_decide as E.
  - intros [= ->]. subst. apply list_elem_of_here.
  - intros Hf. apply list_elem_of_further. by apply IH.
Qed.

Lemma find_None_keys k l : cache.find k l = None ↔ k ∉ l.*1.
Proof.
  induction l as [|[k' v'] l IH]; simpl.
  - split; [intros _; apply not_elem_of_nil | done].
  - rewrite not_elem_of_cons. case_decide as E.
    + split; [done | intros [? _]; by subst].
    + rewrite IH. split; [by intros ? | by intros [_ ?]]; by split.
Qed.

Lemma erase_keys k l : (cache.erase k l).*1 = filter (λ k', k' ≠ k) l.*1.
Proof.
  unfold cache.erase. induction l as [|[k' v'] l IH]; [done|].
  rewrite fmap_cons. simpl fst. rewrite !filter_cons. simpl.
  case_decide; [rewrite fmap_cons|]; by rewrite IH.
Qed.

Lemma erase_absent k l : k ∉ l.*1 → cache.erase k l = l.
Proof.
  unfold cache.erase. induction l as [|[k' v'] l IH]; [done|].
  rewrite fmap_cons, not_elem_of_cons. simpl. intros [Hne Hl].
  rewrite filter_cons. simpl. rewrite decide_True by done. by rewrite IH.
Qed.

Lemma erase_sublist k l : cache.erase k l `sublist_of` l.
Proof. apply sublist_filter. Qed.

Lemma pop_back_sublist l : cache.pop_back l `sublist_of` l.
Proof. apply sublist_take. Qed.

Lemma pop_back_snoc l x : cache.pop_back (l ++ [x]) = l.
Proof.
  unfold cache.pop_back. rewrite length_app. simpl.
  replace (length l + 1 - 1)%nat with (length l) by lia.
  apply take_app_length.
Qed.

(** The entries after a [put], by cases. *)
Lemma items_put k v c :
  cache.items (cache.put k v c)
  = if decide (cache.max_size c
               < Z.of_nat (S (length (cache.erase k (cache.items c)))))
    then cache.pop_back ((k, v) :: cache.erase k (cache.items c))
    else (k, v) :: cache.erase k (cache.items c).
Proof. done. Qed.

Lemma items_put_sublist_erase k v c :
  cache.items (cache.put k v c)
    `sublist_of` (k, v) :: cache.erase k (cache.items c).
Proof.
  rewrite items_put. case_decide; [apply pop_back_sublist | done].
Qed.

Lemma items_put_sublist k v c :
  cache.items (cache.put k v c) `sublist_of` (k, v) :: cache.items c.
Proof.
  etrans; [apply items_put_sublist_erase|]. apply sublist_skip, erase_sublist.
Qed.

Lemma items_get k c :
  cache.items (cache.get k c).2
  = match cache.find k (cache.items c) with
    | Some v => (k, v) :: cache.erase k (cache.items c)
    | None => cache.items c
    end.
Proof. unfold cache.get. by destruct (cache.find _ _). Qed.

Lemma elem_of_items_get k c x :
  x ∈ cache.items (cache.get k c).2 → x ∈ cache.items c.
Proof.
  rewrite items_get. destruct (cache.find _ _) as [v|] eqn:E; [|done].
  rewrite elem_of_cons. intros [->|Hx].
  - by apply find_Some_elem.
  - eapply elem_of_sublist; [done | apply erase_sublist].
Qed.

Lemma max_size_put k v c : cache.max_size (cache.put k v c) = cache.max_size c.
Proof. done. Qed.

Lemma max_size_get k c : cache.max_size (cache.get k c).2 = cache.max_size c.
Proof. unfold cache.get. by destruct (cache.find _ _). Qed.

(** The bound on the number of entries is kept by every operation. *)
Lemma size_put k v c :
  0 <= cache.max_size c →
  cache.size c <= cache.max_size c →
  cache.size (cache.put k v c) <= cache.max_size c.
Proof.
  unfold cache.size. intros H0 Hc. rewrite items_put.
  pose proof (sublist_length _ _ (erase_sublist k (cache.items c))).
  case_decide as E.
  - unfold cache.pop_back. rewrite length_take. simpl length in *. lia.
  - simpl length in *. lia.
Qed.

Lemma size_get k c :
  cache.size c <= cache.max_size c →
  cache.size (cache.get k c).2 <= cache.max_size c.
Proof.
  unfold cache.size. intros Hc. rewrite items_get.
  destruct (cache.find _ _) as [v|] eqn:E; [|done].
  apply find_Some_elem in E.
  assert (length (cache.erase k (cache.items c)) < length (cache.items c))%nat;
    [|simpl; lia].
  unfold cache.erase. eapply length_filter_lt; [done|]. simpl. by intros ?.
Qed.

End CacheFacts.

(** ** Recency *)

Section Recency.
Context {K V : Type} `{EqDecision K}.
Import history.
Implicit Types (h : list (op K V)) (o : op K V) (k : K) (ks : list K).
Implicit Types (c : cache.lru_cache K V) (l kvs : list (K * V)) (v : V).

Lemma idle_unused h o k : uses k o = false → idle (o :: h) k = S <$> idle h k.
Proof. intros E. simpl. by rewrite E. Qed.

Lemma idle_used h o k : uses k o = true → idle (o :: h) k = Some 0%nat.
Proof. intros E. simpl. by rewrite E. Qed.

Lemma fresher_step h o k1 k2 :
  uses k1 o = false → uses k2 o = false →
  fresher h k1 k2 → fresher (o :: h) k1 k2.
Proof.
  intros E1 E2. unfold fresher. rewrite !idle_unused by done.
  destruct (idle h k1), (idle h k2); simpl; try done. lia.
Qed.

Lemma fresher_front h o k1 k2 :
  uses k1 o = true → uses k2 o = false → is_Some (idle h k2) →
  fresher (o :: h) k1 k2.
Proof.
  intros E1 E2 [b Hb]. unfold fresher.
  rewrite idle_used, idle_unused, Hb by done. simpl. lia.
Qed.

Lemma fresher_irrefl h k : ¬ fresher h k k.
Proof. unfold fresher. destruct (idle h k); simpl; [lia | tauto]. Qed.

Lemma snoc_of_nonempty {A} (xs : list A) :
  xs ≠ [] → ∃ (ys : list A) (y : A), xs = ys ++ [y].
Proof. induction xs as [|y ys _] using rev_ind; [done | eauto]. Qed.

Lemma ordered_nil h : ordered h [].
Proof. split; constructor. Qed.

Lemma ordered_sublist h ks ks' :
  ks' `sublist_of` ks → ordered h ks → ordered h ks'.
Proof.
  intros Hsub [Hs Hi]. split.
  - clear Hi. induction Hsub as [|x l1 l2 Hsub IH|x l1 l2 Hsub IH].
    + constructor.
    + apply StronglySorted_cons in Hs as [Hx Hs].
      apply StronglySorted_cons. split; [|by apply IH].
      rewrite Forall_forall in Hx |- *. intros y Hy.
      apply Hx. by eapply elem_of_sublist.
    + apply StronglySorted_cons in Hs as [_ Hs]. by apply IH.
  - rewrite Forall_forall in Hi |- *. intros y Hy.
    apply Hi. by eapply elem_of_sublist.
Qed.

Lemma ordered_step h o ks :
  Forall (λ k, uses k o = false) ks → ordered h ks → ordered (o :: h) ks.
Proof.
  intros Hu [Hs Hi]. split.
  - clear Hi. induction Hs as [|x l Hs IH Hx].
    + constructor.
    + apply Forall_cons in Hu as [Hux Hu].
      apply StronglySorted_cons. split; [|by apply IH].
      rewrite Forall_forall in Hx, Hu |- *. intros y Hy.
      apply fresher_step; auto.
  - rewrite Forall_forall in Hi, Hu |- *. intros y Hy.
    rewrite idle_unused by auto. destruct (Hi y Hy) as [a ->]. by eexists.
Qed.

Lemma ordered_front h o k ks :
  uses k o = true → Forall (λ k', uses k' o = false) ks →
  ordered h ks → ordered (o :: h) (k :: ks).
Proof.
  intros Hk Hu Ho. pose proof (ordered_step h o ks Hu Ho) as [Hs Hi].
  destruct Ho as [_ Hi0]. split.
  - apply StronglySorted_cons. split; [|done].
    rewrite Forall_forall in Hi0, Hu |- *. intros y Hy.
    apply fresher_front; auto.
  - apply Forall_cons. split; [|done]. rewrite idle_used by done. by eexists.
Qed.

Lemma ordered_NoDup h ks : ordered h ks → NoDup ks.
Proof.
  intros [Hs _]. induction Hs as [|x l Hs IH Hx]; [constructor|].
  apply NoDup_cons. split; [|done]. intros Hin.
  rewrite Forall_forall in Hx. by eapply fresher_irrefl, Hx.
Qed.

Lemma ordered_last h ks k k' :
  ordered h (ks ++ [k]) → k' ∈ ks → fresher h k' k.
Proof.
  intros [Hs _] Hin.
  eapply StronglySorted_app_1_elem_of; [done | done | apply list_elem_of_here].
Qed.

Lemma uses_put_other k k' v : k' ≠ k → uses k' (Put k v) = false.
Proof. intros ?. simpl. by rewrite bool_decide_eq_false. Qed.

Lemma uses_get_other k k' : k' ≠ k → uses k' (@Get K V k) = false.
Proof. intros ?. simpl. by rewrite bool_decide_eq_false. Qed.

Lemma ordered_touch h o k ks :
  uses k o = true → (∀ k', k' ≠ k → uses k' o = false) →
  ordered h ks → ordered (o :: h) (k :: filter (λ k', k' ≠ k) ks).
Proof.
  intros Hk Hother Ho. apply ordered_front; [done| |].
  - rewrite Forall_forall. intros k' Hk'.
    apply list_elem_of_filter in Hk' as [Hne _]. by apply Hother.
  - eapply ordered_sublist; [apply sublist_filter | done].
Qed.

(** The entries of a cache are in the order of their last use, the most
    recently used first. *)
Lemma replay_ordered n h : ordered h (cache.items (replay n h)).*1.
Proof.
  induction h as [|o h IH]; [apply ordered_nil|].
  simpl replay. destruct o as [k v|k|k|]; simpl apply.
  - eapply ordered_sublist; [apply fmap_sublist, items_put_sublist_erase|].
    rewrite fmap_cons, erase_keys. simpl fst.
    apply ordered_touch; [by apply bool_decide_eq_true| |done].
    intros k' ?. by apply uses_put_other.
  - rewrite items_get. destruct (cache.find _ _) as [v|] eqn:E.
    + rewrite fmap_cons, erase_keys. simpl fst.
      apply ordered_touch; [by apply bool_decide_eq_true| |done].
      intros k' ?. by apply uses_get_other.
    + apply ordered_step; [|done]. apply find_None_keys in E.
      rewrite Forall_forall. intros k' Hk'. apply uses_get_other.
      by intros ->.
  - apply ordered_step; [|done]. by apply Forall_forall.
  - apply ordered_nil.
Qed.

Lemma replay_max_size n h : cache.max_size (replay n h) = n.
Proof.
  induction h as [|o h IH]; [done|]. simpl replay.
  destruct o; simpl apply; [by rewrite max_size_put | by rewrite max_size_get
                          | done | done].
Qed.

Lemma replay_size n h : 0 <= n → cache.size (replay n h) <= n.
Proof.
  intros Hn. induction h as [|o h IH]; [unfold cache.size; simpl; lia|].
  simpl replay. pose proof (replay_max_size n h) as Hm.
  destruct o; simpl apply.
  - rewrite <- Hm at 2. apply size_put; lia.
  - rewrite <- Hm at 2. apply size_get; lia.
  - done.
  - unfold cache.size. simpl. lia.
Qed.

Lemma replay_NoDup n h : NoDup (cache.items (replay n h)).*1.
Proof. eapply ordered_NoDup, replay_ordered. Qed.

(** A full cache that takes a new key drops its last entry, and every
    other entry was read or written more recently than that one. *)
Lemma put_evicts_least_recently_used n h k v :
  0 < n →
  cache.size (replay n h) = n →
  k ∉ (cache.items (replay n h)).*1 →
  ∃ l kl vl,
    cache.items (replay n h) = l ++ [(kl, vl)]
    ∧ cache.items (cache.put k v (replay n h)) = (k, v) :: l
    ∧ (kl ∉ (cache.items (cache.put k v (replay n h))).*1)
    ∧ (∀ k', k' ∈ l.*1 → fresher h k' kl).
Proof.
  intros Hn Hfull Hk.
  pose proof (replay_ordered n h) as Hord.
  pose proof (replay_max_size n h) as Hmax.
  unfold cache.size in Hfull.
  destruct (snoc_of_nonempty (cache.items (replay n h)))
    as (l0 & [kl vl] & El).
  { intros E. rewrite E in Hfull. simpl in Hfull. lia. }
  exists l0, kl, vl.
  assert (cache.items (cache.put k v (replay n h)) = (k, v) :: l0) as Eput.
  { rewrite items_put, erase_absent by done.
    rewrite decide_True by (rewrite Hmax; lia).
    rewrite El. apply (pop_back_snoc ((k, v) :: l0)). }
  rewrite El, fmap_app in Hord, Hk. simpl in Hord, Hk.
  split_and!; [done | done | |].
  - rewrite Eput, fmap_cons, not_elem_of_cons. simpl. split.
    + intros ->. apply Hk, elem_of_app. right. apply list_elem_of_here.
    + intros Hin. eapply fresher_irrefl, ordered_last; done.
  - intros k' Hk'. by eapply ordered_last.
Qed.

Lemma puts_snoc kvs kv c :
  puts (kvs ++ [kv]) c = cache.put kv.1 kv.2 (puts kvs c).
Proof. unfold puts. by rewrite foldl_snoc. Qed.

Lemma puts_replay n h kvs : puts kvs (replay n h) = replay n (puts_ops kvs ++ h).
Proof.
  induction kvs as [|kv kvs IH] using rev_ind; [done|].
  rewrite puts_snoc, IH. unfold puts_ops.
  by rewrite fmap_app, reverse_app.
Qed.

(** Distinct keys that fit are all kept, the last inserted first. *)
Lemma puts_prefix n h kvs :
  NoDup kvs.*1 → Z.of_nat (length kvs) <= n →
  ∃ R, cache.items (puts kvs (replay n h)) = reverse kvs ++ R.
Proof.
  induction kvs as [|[k v] kvs IH] using rev_ind; intros Hnd Hlen.
  - eexists. by rewrite reverse_nil.
  - rewrite fmap_app in Hnd. apply NoDup_app in Hnd as (Hnd & Hk & _).
    rewrite length_app in Hlen. simpl in Hlen.
    destruct IH as [R HR]; [done | lia |].
    rewrite puts_snoc, items_put, HR. simpl fst; simpl snd.
    assert (cache.erase k (reverse kvs ++ R) = reverse kvs ++ cache.erase k R)
      as ->.
    { unfold cache.erase at 1. rewrite filter_app. f_equal.
      apply erase_absent. rewrite fmap_reverse, elem_of_reverse.
      intros Hin. apply (Hk k Hin), list_elem_of_here. }
    rewrite reverse_snoc. case_decide as E.
    + exists (take (length (cache.erase k R) - 1) (cache.erase k R)).
      unfold cache.pop_back. simpl length. rewrite length_app, length_reverse.
      rewrite puts_replay, replay_max_size in E.
      rewrite length_app, length_reverse in E.
      change ((k, v) :: reverse kvs ++ cache.erase k R)
        with (((k, v) :: reverse kvs) ++ cache.erase k R).
      rewrite take_app. f_equal.
      * apply take_ge. simpl. rewrite length_reverse. lia.
      * f_equal. simpl. rewrite length_reverse. lia.
    + by eexists.
Qed.

Lemma puts_fill n h kvs :
  NoDup kvs.*1 → Z.of_nat (length kvs) = n →
  cache.items (puts kvs (replay n h)) = reverse kvs.
Proof.
  intros Hnd Hlen. destruct (puts_prefix n h kvs) as [R HR]; [done | lia |].
  pose proof (replay_size n (puts_ops kvs ++ h)) as Hsz.
  rewrite <- puts_replay in Hsz. unfold cache.size in Hsz.
  rewrite HR, length_app, length_reverse in Hsz.
  destruct R; [by rewrite app_nil_r in HR|]. simpl in Hsz. lia.
Qed.

End Recency.

(** ** The verification entry point *)

Section VerifyFacts.
Context `{Sodium} `{Digest}.

(** [verifySig] on a 64-byte signature, in closed form: the verdict and
    the statics it leaves, on a hit and on a miss. *)
Lemma verifySig_run key signature bin g :
  length signature = 64%nat →
  verifySig key signature bin g
  = let ck := digest_of key signature bin in
    let c := gVerifySigCache g in
    let hashing := replicate 5 (mkAccess Hasher (gVerifySigCacheMutex g)) in
    let hasher := mkSHA256 (preimage key signature bin) in
    match cache.find ck (cache.items c) with
    | Some v =>
        (Ret v,
         mkGlobals false (cache.get ck c).2 hasher
           (wrap_uint64 (gVerifyCacheHit g + 1)) (gVerifyCacheMiss g)
           (gAccesses g ++ hashing
              ++ [mkAccess VerifySigCache true; mkAccess VerifyCacheHit true;
                  mkAccess VerifySigCache true]))
    | None =>
        let ok := verifyDetached key signature bin in
        (Ret ok,
         mkGlobals false (cache.put ck ok c) hasher
           (gVerifyCacheHit g) (wrap_uint64 (gVerifyCacheMiss g + 1))
           (gAccesses g ++ hashing
              ++ [mkAccess VerifySigCache true; mkAccess VerifyCacheMiss false;
                  mkAccess VerifySigCache true]))
    end.
Proof.
  intros Hlen. unfold verifySig. rewrite decide_False by lia.
  destruct g as [m c hs hit miss log].
  unfold verifySigCacheKey, lock_guard, scoped, cache_exists, incr_hit,
    incr_miss, cache_get, cache_put, hasher_reset, hasher_add, hasher_finish,
    modify, mbind, M_bind, mret, M_ret, digest_of, preimage, verifyDetached,
    cache.exists_, cache.get.
  cbv [set_mutex set_cache set_hasher set_hit set_miss touch SHA256_add
       SHA256_reset SHA256_finish sha_added gVerifySigCacheMutex
       gVerifySigCache gHasher gVerifyCacheHit gVerifyCacheMiss gAccesses
       replicate].
  rewrite <- !(assoc_L (++)), !app_nil_l.
  destruct (cache.find (sha256 (ed25519 key ++ signature ++ bin))
                       (cache.items c)) as [v|] eqn:E;
    cbn -[cache.find cache.put cache.erase sha256 app wrap_uint64];
    rewrite ?E;
    cbn -[cache.find cache.put cache.erase sha256 app wrap_uint64];
    rewrite <- ?(assoc_L (++)); reflexivity.
Qed.


Lemma verifySig_wrong_length key signature bin g :
  length signature ≠ 64%nat →
  verifySig key signature bin g = (Ret false, g).
Proof. intros Hlen. unfold verifySig. by rewrite decide_True. Qed.

Lemma run_snoc calls c : run (calls ++ [c]) = exec (run calls) c.
Proof. unfold run. by rewrite foldl_snoc. Qed.

Lemma cache_after_clear g :
  gVerifySigCache (clearVerifySigCache g).2 = cache.clear (gVerifySigCache g).
Proof. done. Qed.

Lemma cache_after_flush g :
  gVerifySigCache (flushVerifySigCacheCounts g).2 = gVerifySigCache g.
Proof. done. Qed.

Lemma flushVerifySigCacheCounts_run g :
  flushVerifySigCacheCounts g
  = (Ret (gVerifyCacheHit g, gVerifyCacheMiss g),
     mkGlobals false (gVerifySigCache g) (gHasher g) 0 0
       (gAccesses g
          ++ [mkAccess VerifyCacheHit true; mkAccess VerifyCacheMiss true;
              mkAccess VerifyCacheHit true; mkAccess VerifyCacheMiss true])).
Proof.
  destruct g as [m c hs hit miss log].
  unfold flushVerifySigCacheCounts, lock_guard, scoped, modify, mbind,
    M_bind, mret, M_ret.
  cbv [set_mutex set_hit set_miss touch gVerifySigCacheMutex gVerifySigCache
       gHasher gVerifyCacheHit gVerifyCacheMiss gAccesses].
  by rewrite <- !(assoc_L (++)).
Qed.

(** The cache of the process is a cache built by [exists], [get], [put]
    and [clear] from its construction with capacity 0xffff. *)
Lemma run_cache_replay calls :
  ∃ h, gVerifySigCache (run calls) = history.replay 0xffff h.
Proof.
  induction calls as [|c calls [h IH]] using rev_ind; [by exists []|].
  rewrite run_snoc. destruct c as [key signature bin| |]; cbn [exec].
  - destruct (decide (length signature = 64%nat)) as [Hlen|Hlen].
    + rewrite verifySig_run by done. cbv zeta.
      destruct (cache.find _ _) as [v|]; simpl.
      * exists (history.Get (digest_of key signature bin) :: h).
        simpl. by rewrite IH.
      * eexists (history.Put (digest_of key signature bin) _ :: h).
        simpl. by rewrite IH.
    + rewrite verifySig_wrong_length by done. by exists h.
  - exists (history.Clear :: h). rewrite cache_after_clear. simpl.
    by rewrite IH.
  - exists h. by rewrite cache_after_flush.
Qed.

Lemma coherent_mono T T' c : T ⊆ T' → coherent T c → coherent T' c.
Proof.
  intros Hsub Hc d b Hin.
  destruct (Hc d b Hin) as (key & signature & bin & ? & ? & ? & ? & ?).
  exists key, signature, bin. split_and!; auto.
Qed.

Lemma run_coherent calls :
  Forall well_formed calls → coherent (hashed calls) (gVerifySigCache (run calls)).
Proof.
  induction calls as [|c calls IH] using rev_ind; intros Hwf.
  - intros d b Hin. by apply elem_of_nil in Hin.
  - apply Forall_app in Hwf as [Hwf Hc]. rewrite Forall_singleton in Hc.
    specialize (IH Hwf). rewrite run_snoc. unfold hashed. rewrite omap_app.
    fold (hashed calls).
    destruct c as [key signature bin| |]; cbn [exec]; simpl omap.
    + case_decide as Hlen.
      * rewrite verifySig_run by done. cbv zeta.
        destruct (cache.find _ _) as [v|] eqn:E; simpl gVerifySigCache.
        -- eapply coherent_mono; [apply list_subseteq_app_l; done|].
           intros d b Hin. apply IH. by eapply elem_of_items_get.
        -- intros d b Hin.
           eapply elem_of_sublist in Hin; [|apply items_put_sublist].
           apply elem_of_cons in Hin as [[= -> ->]|Hin].
           ++ exists key, signature, bin. split_and!; try done.
              apply elem_of_app. right. apply list_elem_of_here.
           ++ eapply coherent_mono; [|done|done].
              by apply list_subseteq_app_l.
      * rewrite verifySig_wrong_length, app_nil_r by done. done.
    + intros d b Hin. rewrite cache_after_clear in Hin.
      by apply elem_of_nil in Hin.
    + rewrite cache_after_flush, app_nil_r. done.
Qed.

(** With a 32-byte key and a 64-byte signature, the hashed input
    determines the key, the signature and the message. *)
Lemma preimage_inj k1 s1 b1 k2 s2 b2 :
  length (ed25519 k1) = 32%nat → length (ed25519 k2) = 32%nat →
  length s1 = 64%nat → length s2 = 64%nat →
  preimage k1 s1 b1 = preimage k2 s2 b2 →
  ed25519 k1 = ed25519 k2 ∧ s1 = s2 ∧ b1 = b2.
Proof.
  intros Hk1 Hk2 Hs1 Hs2 E. unfold preimage in E.
  apply app_inj_1 in E as [Ek E]; [|congruence].
  apply app_inj_1 in E as [Es Eb]; [|congruence]. done.
Qed.

End VerifyFacts.

(** C7.  A signature that is not 64 bytes long makes [verifySig] return
    [false] as an ordinary result, with the statics exactly as they were:
    no digest computed, no cache lookup or insert, no counter changed. *)
Theorem verifySig_wrong_length_returns_false `{Sodium} `{Digest}
    (key : PublicKey) (signature bin : bytes) (g : Globals) :
  length signature ≠ 64%nat →
  verifySig key signature bin g = (Ret false, g).
Proof. apply verifySig_wrong_length. Qed.

Section verifySig_wrong_length_example.
Import Toy.

Lemma verifySig_wrong_length_returns_false_witness :
  verifySig key0 (replicate 63 Byte.x01) msg_good globals_init
  = (Ret false, globals_init)
  ∧ (verifySig key0 sig0 msg_good globals_init).1 = Ret true.
Proof.
  split; [|reflexivity].
  apply (verifySig_wrong_length_returns_false key0 (replicate 63 Byte.x01)).
  rewrite length_replicate. lia.
Defined.

End verifySig_wrong_length_example.

(** C3.  From an empty cache and zeroed counters, two calls of [verifySig]
    with the same arguments (64-byte signature) leave one miss and one hit:
    the first call misses and inserts, the second hits.
    [flushVerifySigCacheCounts] then returns (1, 1) and leaves both
    counters at zero, all its accesses made with the mutex held. *)
Theorem verifySig_twice_one_miss_one_hit `{Sodium} `{Digest}
    (key : PublicKey) (signature bin : bytes) (g0 : Globals) :
  length signature = 64%nat →
  gVerifySigCache g0 = cache.new 0xffff →
  gVerifyCacheHit g0 = 0 →
  gVerifyCacheMiss g0 = 0 →
  let first := verifySig key signature bin g0 in
  let second := verifySig key signature bin first.2 in
  let flushed := flushVerifySigCacheCounts second.2 in
  first.1 = Ret (verifyDetached key signature bin)
  ∧ gVerifyCacheHit first.2 = 0 ∧ gVerifyCacheMiss first.2 = 1
  ∧ cache.items (gVerifySigCache first.2)
    = [(digest_of key signature bin, verifyDetached key signature bin)]
  ∧ second.1 = Ret (verifyDetached key signature bin)
  ∧ gVerifyCacheHit second.2 = 1 ∧ gVerifyCacheMiss second.2 = 1
  ∧ flushed.1 = Ret (1, 1)
  ∧ gVerifyCacheHit flushed.2 = 0 ∧ gVerifyCacheMiss flushed.2 = 0
  ∧ gVerifySigCache flushed.2 = gVerifySigCache second.2
  ∧ ∃ log, gAccesses flushed.2 = gAccesses second.2 ++ log
           ∧ length log = 4%nat ∧ guarded log.
Proof.
  intros Hlen Hc Hhit Hmiss first second flushed.
  assert (first
          = (Ret (verifyDetached key signature bin),
             mkGlobals false
               (cache.mk_lru_cache 0xffff
                  [(digest_of key signature bin,
                    verifyDetached key signature bin)])
               (mkSHA256 (preimage key signature bin)) 0 1
               (gAccesses g0
                  ++ replicate 5 (mkAccess Hasher (gVerifySigCacheMutex g0))
                  ++ [mkAccess VerifySigCache true;
                      mkAccess VerifyCacheMiss false;
                      mkAccess VerifySigCache true]))) as E1.
  { unfold first. rewrite verifySig_run by done.
    rewrite Hc, Hhit, Hmiss. reflexivity. }
  assert (second.1 = Ret (verifyDetached key signature bin)
          ∧ gVerifyCacheHit second.2 = 1 ∧ gVerifyCacheMiss second.2 = 1)
    as (E2 & E2h & E2m).
  { unfold second. rewrite E1, verifySig_run by done. cbn [snd].
    cbn [gVerifySigCache cache.items cache.find].
    rewrite decide_True by done. done. }
  unfold flushed. rewrite flushVerifySigCacheCounts_run, E2h, E2m.
  rewrite E1. cbn [fst snd gVerifyCacheHit gVerifyCacheMiss gVerifySigCache
                   gAccesses cache.items].
  split_and!; try done.
  eexists. split; [reflexivity|]. split; [done | by repeat constructor].
Qed.

Section verifySig_twice_example.
Import Toy.

Lemma verifySig_twice_one_miss_one_hit_witness :
  let first := verifySig key0 sig0 msg_good globals_init in
  let second := verifySig key0 sig0 msg_good first.2 in
  (gVerifyCacheHit second.2, gVerifyCacheMiss second.2) = (1, 1)
  ∧ (flushVerifySigCacheCounts second.2).1 = Ret (1, 1).
Proof.
  intros first second.
  pose proof (verifySig_twice_one_miss_one_hit key0 sig0 msg_good globals_init
                eq_refl eq_refl eq_refl eq_refl)
    as (_ & _ & _ & _ & _ & Eh & Em & Ef & _).
  split; [|exact Ef]. fold first in Eh, Em. fold second in Eh, Em.
  by rewrite Eh, Em.
Defined.

End verifySig_twice_example.

(** C2.  What the code does: on a call with a 64-byte signature made
    without the mutex held, the shared hasher is reset, fed and finished
    outside the lock, and on a miss [gVerifyCacheMiss] is incremented
    outside the lock, between the two locked blocks; the accesses of the
    call are therefore not all guarded.  The cache itself and
    [gVerifyCacheHit] are only touched with the mutex held. *)
Theorem verifySig_unguarded_accesses `{Sodium} `{Digest}
    (key : PublicKey) (signature bin : bytes) (g : Globals) :
  length signature = 64%nat →
  gVerifySigCacheMutex g = false →
  ∃ log,
    gAccesses (verifySig key signature bin g).2 = gAccesses g ++ log
    ∧ mkAccess Hasher false ∈ log
    ∧ (cache.exists_ (digest_of key signature bin) (gVerifySigCache g) = false →
       mkAccess VerifyCacheMiss false ∈ log)
    ∧ ¬ guarded log
    ∧ (∀ a, a ∈ log →
       acc_var a = VerifySigCache ∨ acc_var a = VerifyCacheHit →
       acc_locked a = true).
Proof.
  intros Hlen Hm. rewrite verifySig_run by done. cbv zeta. rewrite Hm.
  unfold cache.exists_.
  destruct (cache.find _ _) as [v|] eqn:E; cbn [snd gAccesses];
    eexists; (split; [reflexivity|]); simpl replicate; simpl app.
  - split_and!.
    + apply list_elem_of_here.
    + done.
    + intros Hg. by apply Forall_cons in Hg as [[=] _].
    + rewrite <- Forall_forall.
      repeat constructor; simpl; intros [?|?]; done.
  - split_and!.
    + apply list_elem_of_here.
    + intros _. do 6 apply list_elem_of_further. apply list_elem_of_here.
    + intros Hg. by apply Forall_cons in Hg as [[=] _].
    + rewrite <- Forall_forall.
      repeat constructor; simpl; intros [?|?]; done.
Qed.

Section verifySig_unguarded_example.
Import Toy.

Lemma verifySig_unguarded_accesses_witness :
  gAccesses (verifySig key0 sig0 msg_good globals_init).2
  = [mkAccess Hasher false; mkAccess Hasher false; mkAccess Hasher false;
     mkAccess Hasher false; mkAccess Hasher false;
     mkAccess VerifySigCache true; mkAccess VerifyCacheMiss false;
     mkAccess VerifySigCache true]
  ∧ ∃ log,
      gAccesses (verifySig key0 sig0 msg_good globals_init).2 = [] ++ log
      ∧ ¬ guarded log.
Proof.
  split; [reflexivity|].
  destruct (verifySig_unguarded_accesses key0 sig0 msg_good globals_init
              eq_refl eq_refl) as (log & E & _ & _ & Hg & _).
  exists log. split; [exact E | exact Hg].
Defined.

End verifySig_unguarded_example.

(** C1.  In any state the statics reach from process start through calls
    of [verifySig], [clearVerifySigCache] and [flushVerifySigCacheCounts],
    [verifySig] on a 64-byte signature returns the verdict of the
    primitive called directly, whether the cache is empty, already holds
    the verdict of this input or holds only other entries, as long as the
    digest tells apart the inputs hashed so far (section 4.3 of the spec
    takes the digest as collision-free).  A hit and a miss differ in which
    counter moves, not in the result. *)
Theorem verifySig_is_uncached_verification `{Sodium} `{Digest}
    (calls : list call) (key : PublicKey) (signature bin : bytes) :
  Forall well_formed calls →
  length (ed25519 key) = 32%nat →
  length signature = 64%nat →
  collision_free (hashed (calls ++ [CallVerifySig key signature bin])) →
  let g := run calls in
  let r := verifySig key signature bin g in
  r.1 = Ret (verifyDetached key signature bin)
  ∧ ((gVerifyCacheHit r.2 = wrap_uint64 (gVerifyCacheHit g + 1)
      ∧ gVerifyCacheMiss r.2 = gVerifyCacheMiss g)
     ∨ (gVerifyCacheHit r.2 = gVerifyCacheHit g
        ∧ gVerifyCacheMiss r.2 = wrap_uint64 (gVerifyCacheMiss g + 1))).
Proof.
  intros Hwf Hkey Hlen Hfree g r. unfold r.
  rewrite verifySig_run by done. cbv zeta.
  destruct (cache.find _ _) as [v|] eqn:E; cbn [fst snd gVerifyCacheHit
                                                 gVerifyCacheMiss];
    (split; [|auto]); [|done].
  f_equal. apply find_Some_elem in E.
  destruct (run_coherent calls Hwf _ _ E)
    as (key' & signature' & bin' & Hkey' & Hlen' & Hin & Hd & <-).
  assert (preimage key' signature' bin' = preimage key signature bin) as Epre.
  { apply Hfree; [| |exact Hd].
    - unfold hashed. rewrite omap_app. apply elem_of_app. by left.
    - unfold hashed. rewrite omap_app. apply elem_of_app. right.
      simpl. rewrite decide_True by done. apply list_elem_of_here. }
  apply preimage_inj in Epre as (Ek & -> & ->); [|done..].
  unfold verifyDetached. by rewrite Ek.
Qed.

Section verifySig_transparency_example.
Import Toy.

Lemma verifySig_is_uncached_verification_witness :
  cache.exists_ (digest_of key0 sig0 msg_good)
                (gVerifySigCache (run earlier_calls)) = true
  ∧ (verifySig key0 sig0 msg_good (run earlier_calls)).1 = Ret true
  ∧ (verifySig key0 sig0 msg_bad (run earlier_calls)).1 = Ret false.
Proof.
  split; [reflexivity|].
  assert (∀ m, m = msg_good ∨ m = msg_bad →
            collision_free (hashed (earlier_calls ++ [CallVerifySig key0 sig0 m])))
    as Hfree.
  { intros m Hm x y Hx Hy.
    assert (∀ z, z ∈ hashed (earlier_calls ++ [CallVerifySig key0 sig0 m]) →
              z = preimage key0 sig0 msg_good
              ∨ z = preimage key0 sig0 msg_bad) as Hcases.
    { intros z Hz. destruct Hm as [-> | ->];
        repeat (apply elem_of_cons in Hz as [Hz|Hz]; [auto|]);
        by apply elem_of_nil in Hz. }
    destruct (Hcases x Hx) as [-> | ->], (Hcases y Hy) as [-> | ->];
      try done; intros [=]. }
  assert (Forall well_formed earlier_calls) as Hwf by (by repeat constructor).
  split.
  - exact (proj1 (verifySig_is_uncached_verification earlier_calls key0 sig0
             msg_good Hwf eq_refl eq_refl (Hfree _ (or_introl eq_refl)))).
  - exact (proj1 (verifySig_is_uncached_verification earlier_calls key0 sig0
             msg_bad Hwf eq_refl eq_refl (Hfree _ (or_intror eq_refl)))).
Defined.

(** Why the digest has to tell the hashed inputs apart: under the byte-sum
    digest of [Toy] the messages [[x01; x01]] and [[x02]] have one digest,
    and the second is answered with the cached verdict of the first. *)
Remark weak_digest_shares_verdicts :
  let g := (verifySig key0 sig0 [Byte.x01; Byte.x01] globals_init).2 in
  digest_of key0 sig0 [Byte.x02] = digest_of key0 sig0 [Byte.x01; Byte.x01]
  ∧ (verifySig key0 sig0 [Byte.x02] g).1 = Ret true
  ∧ verifyDetached key0 sig0 [Byte.x02] = false.
Proof. split_and!; reflexivity. Qed.

End verifySig_transparency_example.

(** C8.  The verification cache is built with capacity 0xffff = 65,535 and
    no sequence of operations changes that capacity or takes it beyond
    65,535 entries.  Inserting 65,536 distinct keys into any cache the
    process can reach leaves exactly 65,535 entries, the keys inserted
    last; the first key inserted is gone, and when it was dropped every
    other entry had been read or written more recently.  In general a full
    cache that takes a new key drops the entry that was read or written
    least recently. *)
Theorem verification_cache_bounded_lru `{Sodium} `{Digest}
    (h : list (history.op bytes bool)) (kvs : list (bytes * bool)) :
  NoDup kvs.*1 →
  Z.of_nat (length kvs) = 0xffff + 1 →
  let c := history.replay 0xffff h in
  cache.max_size (gVerifySigCache globals_init) = 65535
  ∧ (∀ calls, ∃ h', gVerifySigCache (run calls) = history.replay 0xffff h')
  ∧ cache.max_size c = 65535
  ∧ cache.size c <= 65535
  ∧ (∃ first mid last,
       kvs = first :: mid ++ [last]
       ∧ let before := history.puts (first :: mid) c in
         let after := cache.put last.1 last.2 before in
         history.puts kvs c = after
         ∧ cache.size before = 65535
         ∧ cache.items after = last :: reverse mid
         ∧ cache.size after = 65535
         ∧ NoDup (cache.items after).*1
         ∧ (first.1 ∉ (cache.items after).*1)
         ∧ (∀ k, k ∈ (cache.items before).*1 → k ≠ first.1 →
              history.fresher (history.puts_ops (first :: mid) ++ h) k first.1))
  ∧ (∀ k v, cache.size c = 65535 → k ∉ (cache.items c).*1 →
       ∃ l kl vl,
         cache.items c = l ++ [(kl, vl)]
         ∧ cache.items (cache.put k v c) = (k, v) :: l
         ∧ (kl ∉ (cache.items (cache.put k v c)).*1)
         ∧ (∀ k', k' ∈ l.*1 → history.fresher h k' kl)).
Proof.
  intros Hnd Hlen c. split_and!.
  - done.
  - apply run_cache_replay.
  - apply replay_max_size.
  - by apply replay_size.
  - destruct kvs as [|[k0 v0] rest]; [simpl in Hlen; lia|].
    destruct (snoc_of_nonempty rest) as (mid & [kN vN] & ->).
    { intros ->. simpl in Hlen. lia. }
    exists (k0, v0), mid, (kN, vN). split; [done|]. cbv zeta.
    rewrite app_comm_cons in Hnd, Hlen |- *.
    rewrite fmap_app in Hnd. apply NoDup_app in Hnd as (Hnd & Hlast & _).
    rewrite length_app in Hlen. simpl length in Hlen.
    assert (cache.items (history.puts ((k0, v0) :: mid) c)
            = reverse mid ++ [(k0, v0)]) as Ebefore.
    { unfold c. rewrite puts_fill, reverse_cons; [done..|simpl; lia]. }
    assert (cache.size (history.puts ((k0, v0) :: mid) c) = 65535) as Efull.
    { unfold cache.size.
      rewrite Ebefore, length_app, length_reverse. simpl. lia. }
    unfold c in *. rewrite puts_snoc, !puts_replay in *.
    destruct (put_evicts_least_recently_used 0xffff
                (history.puts_ops ((k0, v0) :: mid) ++ h) kN vN)
      as (l & kl & vl & El & Eafter & Hgone & Hlru); [done | done | |].
    { rewrite Ebefore, <- reverse_cons, fmap_reverse, elem_of_reverse.
      intros Hin. apply (Hlast _ Hin). simpl. apply list_elem_of_here. }
    rewrite Ebefore in El. apply app_inj_2 in El as [<- [= <- <-]]; [|done].
    cbn [fst snd].
    split_and!.
    + done.
    + done.
    + done.
    + unfold cache.size. rewrite Eafter. simpl. rewrite length_reverse. lia.
    + apply (replay_NoDup 0xffff
               (history.Put kN vN :: history.puts_ops ((k0, v0) :: mid) ++ h)).
    + done.
    + intros k Hk Hne. rewrite Ebefore, fmap_app in Hk.
      apply elem_of_app in Hk as [Hk|Hk]; [by apply Hlru|].
      simpl in Hk. apply list_elem_of_singleton in Hk. done.
  - intros k v Hfull Hk.
    by apply (put_evicts_least_recently_used 0xffff h k v).
Qed.

Section verification_cache_example.
Import Toy.
Lemma byte_to_Z_of_Z (z : Z) : 0 <= z < 256 → byte_to_Z (byte_of_Z z) = z.
Proof.
  intros Hz. unfold byte_of_Z, byte_to_Z. rewrite Z.mod_small by done.
  destruct (Byte.of_N (Z.to_N z)) as [b|] eqn:E.
  - apply Byte.to_of_N in E. simpl. rewrite E. lia.
  - apply Byte.of_N_None_iff in E. lia.
Qed.

Lemma nth_digest_inj (i j : Z) :
  0 <= i < 65536 → 0 <= j < 65536 → nth_digest i = nth_digest j → i = j.
Proof.
  intros Hi Hj [= Eq Er].
  apply (f_equal byte_to_Z) in Eq, Er.
  rewrite !byte_to_Z_of_Z in Eq, Er
    by (try apply Z.mod_pos_bound; try (split; [apply Z.div_pos|
          apply Z.div_lt_upper_bound]); lia).
  rewrite (Z.div_mod i 256), (Z.div_mod j 256) by lia. congruence.
Qed.

Lemma many_entries_NoDup : NoDup many_entries.*1.
Proof.
  unfold many_entries. rewrite <- list_fmap_compose.
  apply NoDup_fmap_2_strong; [|apply NoDup_seqZ].
  intros i j Hi Hj E. apply elem_of_seqZ in Hi, Hj.
  apply nth_digest_inj; [lia | lia | exact E].
Qed.

Lemma many_entries_length : Z.of_nat (length many_entries) = 0xffff + 1.
Proof.
  unfold many_entries. rewrite length_fmap, length_seqZ. lia.
Qed.

Lemma verification_cache_bounded_lru_witness :
  cache.size (history.puts many_entries (gVerifySigCache globals_init)) = 65535.
Proof.
  destruct (verification_cache_bounded_lru [] many_entries
              many_entries_NoDup many_entries_length)
    as (_ & _ & _ & _ & (first & mid & last & _ & Eputs & _ & _ & Esize & _)
        & _).
  change (gVerifySigCache globals_init)
    with (@history.replay bytes bool _ 0xffff []).
  rewrite Eputs. exact Esize.
Defined.

End verification_cache_example.

(** ** The diagnostic key dump *)

Section KeyDumpFacts.
Context `{Sodium} `{Codec}.

(** A block whose parser rejects the input prints nothing. *)
Lemma logKey_hex_rejected key s e :
  hexToBin256 key = Throw e → logKey_hex key s = (Throw e, s).
Proof. intros E. unfold logKey_hex, lift, mbind, M_bind. by rewrite E. Qed.

Lemma logKey_public_rejected key s e :
  KeyUtils_fromPsrKey key = Throw e → logKey_public key s = (Throw e, s).
Proof. intros E. unfold logKey_public, lift, mbind, M_bind. by rewrite E. Qed.

Lemma logKey_seed_rejected key s e :
  fromPsrKeySeed key = Throw e → logKey_seed key s = (Throw e, s).
Proof. intros E. unfold logKey_seed, lift, mbind, M_bind. by rewrite E. Qed.

Lemma logKey_cases key s :
  logKey key s
  = match logKey_hex key s with
    | (Ret _, s1) => (Ret tt, s1)
    | (Throw _, s1) =>
        match logKey_public key s1 with
        | (Ret _, s2) => (Ret tt, s2)
        | (Throw _, s2) =>
            match logKey_seed key s2 with
            | (Ret _, s3) => (Ret tt, s3)
            | (Throw _, s3) =>
                (Ret tt, (s3 +:+ "Unknown key type") +:+ endl)
            end
        end
    end.
Proof.
  unfold logKey, try_catch_all, mbind, M_bind, mret, M_ret, out, modify.
  destruct (logKey_hex key s) as [[?|?] s1]; [done|].
  destruct (logKey_public key s1) as [[?|?] s2]; [done|].
  destruct (logKey_seed key s2) as [[?|?] s3]; done.
Qed.

End KeyDumpFacts.

(** C9.  [logKey] never ends by an exception.  It runs the hex block
    first and stops there when that block runs to its end; otherwise it
    drops the exception and runs the encoded-public-key block, then in the
    same way the encoded-seed block; when the three blocks all fail it
    prints the line "Unknown key type".  When the three parsers reject the
    input, that line is all it prints. *)
Theorem logKey_tries_each_interpretation `{Sodium} `{Codec}
    (key : string) (s : ostream) :
  (∃ s', logKey key s = (Ret tt, s'))
  ∧ (∀ s1, logKey_hex key s = (Ret tt, s1) → logKey key s = (Ret tt, s1))
  ∧ (∀ e1 s1 s2,
       logKey_hex key s = (Throw e1, s1) →
       logKey_public key s1 = (Ret tt, s2) →
       logKey key s = (Ret tt, s2))
  ∧ (∀ e1 s1 e2 s2 s3,
       logKey_hex key s = (Throw e1, s1) →
       logKey_public key s1 = (Throw e2, s2) →
       logKey_seed key s2 = (Ret tt, s3) →
       logKey key s = (Ret tt, s3))
  ∧ (∀ e1 s1 e2 s2 e3 s3,
       logKey_hex key s = (Throw e1, s1) →
       logKey_public key s1 = (Throw e2, s2) →
       logKey_seed key s2 = (Throw e3, s3) →
       logKey key s = (Ret tt, (s3 +:+ "Unknown key type") +:+ endl))
  ∧ (∀ e1 e2 e3,
       hexToBin256 key = Throw e1 →
       KeyUtils_fromPsrKey key = Throw e2 →
       fromPsrKeySeed key = Throw e3 →
       logKey key s = (Ret tt, (s +:+ "Unknown key type") +:+ endl)).
Proof.
  split_and!.
  - rewrite logKey_cases.
    destruct (logKey_hex key s) as [[?|?] s1]; [by eexists|].
    destruct (logKey_public key s1) as [[?|?] s2]; [by eexists|].
    destruct (logKey_seed key s2) as [[?|?] s3]; by eexists.
  - intros s1 E1. by rewrite logKey_cases, E1.
  - intros e1 s1 s2 E1 E2. by rewrite logKey_cases, E1, E2.
  - intros e1 s1 e2 s2 s3 E1 E2 E3. by rewrite logKey_cases, E1, E2, E3.
  - intros e1 s1 e2 s2 e3 s3 E1 E2 E3. by rewrite logKey_cases, E1, E2, E3.
  - intros e1 e2 e3 E1 E2 E3.
    by rewrite logKey_cases, (logKey_hex_rejected _ _ _ E1),
      (logKey_public_rejected _ _ _ E2), (logKey_seed_rejected _ _ _ E3).
Qed.

Section logKey_example.
Import Toy.

Lemma logKey_examples :
  logKey "neither" EmptyString = (Ret tt, "Unknown key type" +:+ endl)
  ∧ logKey "GKEY" EmptyString
    = (Ret tt,
       "PublicKey:" +:+ endl +:+ "  psrKey: <public>" +:+ endl
         +:+ "  hex: <hex>" +:+ endl)
  ∧ logKey "SEED" EmptyString
    = (Ret tt,
       "Seed:" +:+ endl +:+ "  psrKey: <seed>" +:+ endl
         +:+ "PublicKey:" +:+ endl +:+ "  psrKey: <public>" +:+ endl
         +:+ "  hex: <hex>" +:+ endl).
Proof. split_and!; reflexivity. Qed.

End logKey_example.

(** * Further properties *)

(** ** Zero keys *)

Lemma all_zero_Forall (l : bytes) :
  all_zero l = true ↔ Forall (λ b, b = Byte.x00) l.
Proof.
  induction l as [|b l IH]; cbn [all_zero].
  - split; [constructor | done].
  - rewrite Forall_cons. case_decide as E.
    + rewrite IH. split; [by intros ? | by intros [_ ?]].
    + split; [done | intros [? _]; done].
Qed.

(** X1.  [isZero] answers [true] exactly when every byte of the secret key
    is zero, and [false] exactly when some byte is not.  A default
    constructed key is zero; a key that [fromSeed] returns for a seed with
    a non-zero byte is not. *)
Theorem isZero_iff_all_bytes_zero `{Sodium} (sk : SecretKey) :
  (isZero sk = true ↔ Forall (λ b, b = Byte.x00) (mSecretKey sk))
  ∧ (isZero sk = false ↔
     ∃ i b, mSecretKey sk !! i = Some b ∧ b ≠ Byte.x00)
  ∧ isZero SecretKey_new = true
  ∧ (∀ seed, fromSeed seed = Ret sk →
       (∃ i b, seed !! i = Some b ∧ b ≠ Byte.x00) → isZero sk = false).
Proof.
  assert (isZero sk = false ↔
          ∃ i b, mSecretKey sk !! i = Some b ∧ b ≠ Byte.x00) as Hfalse.
  { unfold isZero. rewrite <- not_true_iff_false, all_zero_Forall. split.
    - intros Hn. apply not_Forall_Exists in Hn; [|apply _].
      apply Exists_exists in Hn as (b & Hb & Hne).
      apply list_elem_of_lookup in Hb as [i Hi]. eauto.
    - intros (i & b & Hi & Hne) Hall. rewrite Forall_forall in Hall.
      apply Hne, Hall, list_elem_of_lookup. eauto. }
  split_and!.
  - apply all_zero_Forall.
  - exact Hfalse.
  - apply all_zero_replicate.
  - intros seed Hsk (i & b & Hi & Hne). apply Hfalse.
    unfold fromSeed, crypto_sign_seed_keypair in Hsk.
    case_decide as Hlen; [done|]. case_decide; [done|].
    injection Hsk as <-. simpl. exists i, b. split; [|done].
    apply lookup_app_l_Some. rewrite lookup_take_lt; [done|].
    apply lookup_lt_Some in Hi. unfold crypto_sign_SEEDBYTES in Hlen. lia.
Qed.

(** ** Seeds as text *)

(** X2.  [fromPsrKeySeed] throws "invalid seed" when the text does not
    decode, decodes to another version byte, to a payload that is not 32
    bytes, or has not the length of an encoded 32-byte payload; otherwise
    it returns what [fromSeed] returns on the decoded payload. *)
Theorem fromPsrKeySeed_is_fromSeed_of_payload `{Sodium} `{Codec}
    (psrKeySeed : string) :
  (psrKey_fromPsrKey psrKeySeed = None →
   fromPsrKeySeed psrKeySeed = Throw (runtime_error "invalid seed"))
  ∧ (∀ ver seed,
       psrKey_fromPsrKey psrKeySeed = Some (ver, seed) →
       (ver = PSRKEY_SEED_ED25519 ∧ length seed = 32%nat
        ∧ String.length psrKeySeed = psrKey_getPsrKeySize 32 →
        fromPsrKeySeed psrKeySeed = fromSeed seed)
       ∧ (ver ≠ PSRKEY_SEED_ED25519 ∨ length seed ≠ 32%nat
          ∨ String.length psrKeySeed ≠ psrKey_getPsrKeySize 32 →
          fromPsrKeySeed psrKeySeed = Throw (runtime_error "invalid seed"))).
Proof.
  unfold fromPsrKeySeed. split.
  - by intros ->.
  - intros ver seed ->. unfold crypto_sign_SEEDBYTES. split.
    + intros (Hver & Hlen & Hsize). rewrite decide_False by tauto.
      unfold fromSeed, crypto_sign_SEEDBYTES. by rewrite decide_False by lia.
    + intros Hbad. by rewrite decide_True.
Qed.

(** X3.  A key built from a 32-byte seed survives the trip through its
    text: when the codec decodes the encoded seed back to the seed, with
    the seed version byte and the expected text length, and the primitive
    reports success, [fromPsrKeySeed (getPsrKeySeed sk)] is [sk]. *)
Theorem fromPsrKeySeed_getPsrKeySeed `{Sodium} `{Codec} (s : bytes) :
  length s = 32%nat →
  seed_keypair_status s = 0 →
  sk_to_seed_status (s ++ ed25519_pk_of_seed s) = 0 →
  psrKey_fromPsrKey (psrKey_toPsrKey PSRKEY_SEED_ED25519 s)
  = Some (PSRKEY_SEED_ED25519, s) →
  String.length (psrKey_toPsrKey PSRKEY_SEED_ED25519 s)
  = psrKey_getPsrKeySize 32 →
  ∃ sk, fromSeed s = Ret sk
        ∧ getPsrKeySeed sk = Ret (psrKey_toPsrKey PSRKEY_SEED_ED25519 s)
        ∧ obind (getPsrKeySeed sk) fromPsrKeySeed = Ret sk.
Proof.
  intros Hlen Hrc Hrc' Hdec Hsize.
  eexists. split; [by apply fromSeed_ok|].
  assert (getPsrKeySeed
            (mkSecretKey PUBLIC_KEY_TYPE_ED25519 (s ++ ed25519_pk_of_seed s))
          = Ret (psrKey_toPsrKey PSRKEY_SEED_ED25519 s)) as E.
  { unfold getPsrKeySeed, getSeed, crypto_sign_ed25519_sk_to_seed. simpl.
    rewrite decide_False by lia. simpl.
    by rewrite take_app_length' by done. }
  split; [exact E|]. rewrite E. simpl.
  unfold fromPsrKeySeed. rewrite Hdec.
  rewrite decide_False by (unfold crypto_sign_SEEDBYTES; tauto).
  unfold crypto_sign_seed_keypair. rewrite decide_False by lia.
  by rewrite (take_ge s 32) by lia.
Qed.

Section seed_text_example.
Import Toy Toy2.

Lemma fromPsrKeySeed_getPsrKeySeed_witness :
  ∃ sk, fromSeed seed1 = Ret sk
        ∧ getPsrKeySeed sk = Ret "ABCCCCCCCCCCCCCCCCCCCCCCCCCCCCCC"
        ∧ obind (getPsrKeySeed sk) fromPsrKeySeed = Ret sk.
Proof.
  exact (fromPsrKeySeed_getPsrKeySeed seed1
           eq_refl eq_refl eq_refl eq_refl eq_refl).
Defined.

End seed_text_example.

(** ** Version bytes and key types *)

(** X4.  The three conversions of [KeyFunctions<PublicKey>] agree: a
    version byte is supported exactly when [toKeyType] accepts it, and an
    unsupported one makes [toKeyType] throw [invalid_argument];
    [toKeyVersion] throws [invalid_argument] exactly on a value that is not
    [PUBLIC_KEY_TYPE_ED25519]; [toKeyType] maps a version byte to a key
    type exactly when [toKeyVersion] maps that key type back to the version
    byte, and a version byte that [toKeyVersion] returns is supported. *)
Theorem KeyFunctions_versions_agree `{PsrKeyVersions}
    (keyVersion keyType : Z) :
  let supported := KeyFunctions_PublicKey.getKeyVersionIsSupported in
  let toKeyType := KeyFunctions_PublicKey.toKeyType in
  let toKeyVersion := KeyFunctions_PublicKey.toKeyVersion in
  (supported keyVersion = true ↔ ∃ t, toKeyType keyVersion = Ret t)
  ∧ (supported keyVersion = false ↔
     toKeyType keyVersion = Throw (invalid_argument "invalid public key type"))
  ∧ (toKeyVersion keyType = Throw (invalid_argument "invalid public key type")
     ↔ keyType ≠ PUBLIC_KEY_TYPE_ED25519_value)
  ∧ (toKeyType keyVersion = Ret keyType
     ↔ toKeyVersion keyType = Ret keyVersion)
  ∧ (∀ v, toKeyVersion keyType = Ret v →
       supported v = true ∧ toKeyType v = Ret keyType).
Proof.
  cbv zeta. unfold KeyFunctions_PublicKey.getKeyVersionIsSupported,
    KeyFunctions_PublicKey.toKeyType, KeyFunctions_PublicKey.toKeyVersion.
  destruct (decide (keyVersion = PSRKEY_PUBKEY_ED25519)) as [Ev|Ev];
    destruct (decide (keyType = PUBLIC_KEY_TYPE_ED25519_value)) as [Et|Et];
    split_and!.
  all: try match goal with
           | |- ∀ v, _ → _ =>
               intros v [= <-]; rewrite !decide_True by done; by subst
           end.
  all: split; intros Hx; try done; try congruence; eauto.
  all: try (destruct Hx as [t [=]]).
Qed.

Section versions_example.
Import Toy2.

Lemma KeyFunctions_versions_agree_witness :
  KeyFunctions_PublicKey.toKeyVersion 0 = Ret 48
  ∧ KeyFunctions_PublicKey.toKeyType 48 = Ret 0
  ∧ KeyFunctions_PublicKey.toKeyVersion 7
    = Throw (invalid_argument "invalid public key type")
  ∧ KeyFunctions_PublicKey.toKeyType 144
    = Throw (invalid_argument "invalid public key type").
Proof.
  split; [reflexivity|].
  split; [exact (proj2 (proj1 (proj2 (proj2 (proj2
           (KeyFunctions_versions_agree 48 0))))) eq_refl)|].
  split; reflexivity.
Defined.

End versions_example.

(** ** The statics between calls *)

Section StaticsFacts.
Context `{Sodium} `{Digest}.

Lemma clearVerifySigCache_run g :
  clearVerifySigCache g
  = (Ret tt,
     mkGlobals false (cache.clear (gVerifySigCache g)) (gHasher g)
       (gVerifyCacheHit g) (gVerifyCacheMiss g)
       (gAccesses g ++ [mkAccess VerifySigCache true])).
Proof. by destruct g. Qed.

Lemma find_put_same (k : bytes) (v : bool) (c : cache.lru_cache bytes bool) :
  0 < cache.max_size c →
  cache.find k (cache.items (cache.put k v c)) = Some v.
Proof.
  intros Hmax. rewrite items_put. case_decide as E.
  - unfold cache.pop_back.
    destruct (cache.erase k (cache.items c)) as [|x l] eqn:El;
      [simpl in E; lia|].
    simpl. by rewrite decide_True.
  - simpl. by rewrite decide_True.
Qed.

Lemma find_get_same (k : bytes) (v : bool) (c : cache.lru_cache bytes bool) :
  cache.find k (cache.items c) = Some v →
  cache.find k (cache.items (cache.get k c).2) = Some v.
Proof.
  intros E. rewrite items_get, E. simpl. by rewrite decide_True.
Qed.

End StaticsFacts.

(** X5.  [verifySigCacheKey] starts by resetting the shared hasher, so the
    key it returns is the digest of public key, signature and message in
    that order, whatever an earlier use left in the hasher; the call
    changes the hasher only, not the cache, the counters or the mutex. *)
Theorem verifySigCacheKey_ignores_hasher_state `{Sodium} `{Digest}
    (key : PublicKey) (signature bin : bytes) (g : Globals) :
  let r := verifySigCacheKey key signature bin g in
  r.1 = Ret (sha256 (ed25519 key ++ signature ++ bin))
  ∧ gHasher r.2 = mkSHA256 (ed25519 key ++ signature ++ bin)
  ∧ gVerifySigCache r.2 = gVerifySigCache g
  ∧ gVerifyCacheHit r.2 = gVerifyCacheHit g
  ∧ gVerifyCacheMiss r.2 = gVerifyCacheMiss g
  ∧ gVerifySigCacheMutex r.2 = gVerifySigCacheMutex g.
Proof.
  destruct g as [m c hs hit miss log]. cbv zeta.
  unfold verifySigCacheKey, hasher_reset, hasher_add, hasher_finish, modify,
    mbind, M_bind.
  cbv [set_hasher touch SHA256_add SHA256_reset SHA256_finish sha_added fst snd
       gVerifySigCacheMutex gVerifySigCache gHasher gVerifyCacheHit
       gVerifyCacheMiss gAccesses].
  rewrite <- !(assoc_L (++)), !app_nil_l. done.
Qed.

(** X6.  After [clearVerifySigCache] the cache is empty and the counters
    are as before, and the next [verifySig] on a 64-byte signature is a
    miss: it returns the verdict of the primitive, increments the miss
    counter only, and caches the verdict. *)
Theorem clearVerifySigCache_forces_a_miss `{Sodium} `{Digest}
    (key : PublicKey) (signature bin : bytes) (g : Globals) :
  length signature = 64%nat →
  0 < cache.max_size (gVerifySigCache g) →
  let cleared := (clearVerifySigCache g).2 in
  let r := verifySig key signature bin cleared in
  cache.items (gVerifySigCache cleared) = []
  ∧ gVerifyCacheHit cleared = gVerifyCacheHit g
  ∧ gVerifyCacheMiss cleared = gVerifyCacheMiss g
  ∧ r.1 = Ret (verifyDetached key signature bin)
  ∧ gVerifyCacheHit r.2 = gVerifyCacheHit g
  ∧ gVerifyCacheMiss r.2 = wrap_uint64 (gVerifyCacheMiss g + 1)
  ∧ cache.items (gVerifySigCache r.2)
    = [(digest_of key signature bin, verifyDetached key signature bin)].
Proof.
  intros Hlen Hmax. cbv zeta.
  rewrite clearVerifySigCache_run, verifySig_run by done.
  cbn [snd gVerifySigCache gVerifyCacheHit gVerifyCacheMiss cache.clear
       cache.items cache.find fst].
  split_and!; try done.
  rewrite items_put. cbn [cache.items cache.max_size cache.erase].
  by rewrite decide_False by (simpl; lia).
Qed.

Section clear_example.
Import Toy.

Lemma clearVerifySigCache_forces_a_miss_witness :
  let g := run earlier_calls in
  let cleared := (clearVerifySigCache g).2 in
  cache.exists_ (digest_of key0 sig0 msg_good) (gVerifySigCache g) = true
  ∧ gVerifyCacheMiss
      (verifySig key0 sig0 msg_good cleared).2
    = wrap_uint64 (gVerifyCacheMiss g + 1).
Proof.
  intros g cleared. split; [reflexivity|].
  exact (proj1 (proj2 (proj2 (proj2 (proj2 (proj2
    (clearVerifySigCache_forces_a_miss key0 sig0 msg_good g
       eq_refl eq_refl))))))).
Defined.

End clear_example.

(** X7.  In any state whose cache has room for one entry, a [verifySig]
    call on a 64-byte signature that is repeated at once hits: the second
    call returns what the first returned, increments the hit counter and
    leaves the miss counter alone. *)
Theorem verifySig_repeat_hits `{Sodium} `{Digest}
    (key : PublicKey) (signature bin : bytes) (g : Globals) :
  length signature = 64%nat →
  0 < cache.max_size (gVerifySigCache g) →
  let first := verifySig key signature bin g in
  let second := verifySig key signature bin first.2 in
  second.1 = first.1
  ∧ (∃ v, first.1 = Ret v
          ∧ cache.find (digest_of key signature bin)
                       (cache.items (gVerifySigCache first.2)) = Some v)
  ∧ gVerifyCacheHit second.2 = wrap_uint64 (gVerifyCacheHit first.2 + 1)
  ∧ gVerifyCacheMiss second.2 = gVerifyCacheMiss first.2.
Proof.
  intros Hlen Hmax first second.
  assert (∃ v, first.1 = Ret v
               ∧ cache.find (digest_of key signature bin)
                            (cache.items (gVerifySigCache first.2)) = Some v)
    as (v & E1 & Ef).
  { unfold first. rewrite verifySig_run by done. cbv zeta.
    destruct (cache.find _ _) as [v|] eqn:E; cbn [fst snd gVerifySigCache].
    - exists v. split; [done|]. by apply find_get_same.
    - eexists. split; [done|]. by apply find_put_same. }
  unfold second. rewrite verifySig_run by done. cbv zeta. rewrite Ef.
  cbn [fst snd gVerifyCacheHit gVerifyCacheMiss]. rewrite E1.
  split_and!; eauto.
Qed.

Section repeat_example.
Import Toy.

Lemma verifySig_repeat_hits_witness :
  let g := run earlier_calls in
  let first := verifySig key0 sig0 [Byte.x07] g in
  (verifySig key0 sig0 [Byte.x07] first.2).1 = first.1.
Proof.
  intros g first.
  exact (proj1 (verifySig_repeat_hits key0 sig0 [Byte.x07] g eq_refl eq_refl)).
Defined.

End repeat_example.

(** X8.  Over every run of calls from process start, the mutex is free
    when a call has returned, and the cache object and the hit counter are
    never read or written without the mutex held. *)
Theorem cache_and_hit_counter_always_locked `{Sodium} `{Digest}
    (calls : list call) :
  gVerifySigCacheMutex (run calls) = false
  ∧ ∀ a, a ∈ gAccesses (run calls) →
      acc_var a = VerifySigCache ∨ acc_var a = VerifyCacheHit →
      acc_locked a = true.
Proof.
  rewrite <- Forall_forall.
  induction calls as [|c calls [IHm IHlog]] using rev_ind.
  - split; [done | constructor].
  - rewrite run_snoc. destruct c as [key signature bin| |]; cbn [exec].
    + destruct (decide (length signature = 64%nat)) as [Hlen|Hlen].
      * rewrite verifySig_run by done. cbv zeta. rewrite IHm.
        destruct (cache.find _ _) as [v|];
          cbn [snd gVerifySigCacheMutex gAccesses];
          (split; [done|]); apply Forall_app; (split; [done|]);
          repeat constructor; simpl; intros [?|?]; done.
      * by rewrite verifySig_wrong_length by done.
    + rewrite clearVerifySigCache_run.
      cbn [snd gVerifySigCacheMutex gAccesses].
      split; [done|]. apply Forall_app. split; [done|]. by repeat constructor.
    + rewrite flushVerifySigCacheCounts_run.
      cbn [snd gVerifySigCacheMutex gAccesses].
      split; [done|]. apply Forall_app. split; [done|]. by repeat constructor.
Qed.

Lemma counted_snoc (calls : list call) (c : call) :
  counted (calls ++ [c])
  = match c with
    | CallVerifySig _ signature _ =>
        if decide (length signature = 64%nat)
        then counted calls + 1 else counted calls
    | CallClear => counted calls
    | CallFlush => 0
    end.
Proof. unfold counted. by rewrite foldl_snoc. Qed.

Lemma counters_count_calls `{Sodium} `{Digest} (calls : list call) :
  Z.of_nat (length calls) < 2 ^ 64 →
  0 <= gVerifyCacheHit (run calls)
  ∧ 0 <= gVerifyCacheMiss (run calls)
  ∧ gVerifyCacheHit (run calls) + gVerifyCacheMiss (run calls) = counted calls
  ∧ counted calls <= Z.of_nat (length calls).
Proof.
  induction calls as [|c calls IH] using rev_ind; intros Hlen.
  - unfold counted. simpl. lia.
  - rewrite length_app in Hlen. simpl in Hlen.
    destruct IH as (Hh & Hm & Hsum & Hle); [lia|].
    rewrite run_snoc, counted_snoc, length_app. simpl length.
    destruct c as [key signature bin| |]; cbn [exec].
    + case_decide as Hsig.
      * rewrite verifySig_run by done. cbv zeta. unfold wrap_uint64.
        destruct (cache.find _ _) as [v|];
          cbn [snd gVerifyCacheHit gVerifyCacheMiss];
          rewrite Z.mod_small by lia; lia.
      * rewrite verifySig_wrong_length by done. cbn [snd]. lia.
    + rewrite clearVerifySigCache_run. cbn [snd gVerifyCacheHit gVerifyCacheMiss].
      lia.
    + rewrite flushVerifySigCacheCounts_run.
      cbn [snd gVerifyCacheHit gVerifyCacheMiss]. lia.
Qed.

(** X9.  Every [verifySig] call on a 64-byte signature moves exactly one
    of the two counters, and no other call moves any: in a run of fewer
    than 2^64 calls, hits plus misses is the number of such calls since the
    last flush, and a flush returns that pair and starts again from zero. *)
Theorem hits_plus_misses_count_verifications `{Sodium} `{Digest}
    (calls : list call) :
  Z.of_nat (length calls) < 2 ^ 64 →
  let g := run calls in
  gVerifyCacheHit g + gVerifyCacheMiss g = counted calls
  ∧ (flushVerifySigCacheCounts g).1
    = Ret (gVerifyCacheHit g, gVerifyCacheMiss g)
  ∧ counted (calls ++ [CallFlush]) = 0
  ∧ gVerifyCacheHit (run (calls ++ [CallFlush])) = 0
  ∧ gVerifyCacheMiss (run (calls ++ [CallFlush])) = 0.
Proof.
  intros Hlen g. destruct (counters_count_calls calls Hlen) as (_ & _ & E & _).
  rewrite run_snoc, counted_snoc. cbn [exec].
  rewrite flushVerifySigCacheCounts_run. by split_and!.
Qed.

Section counting_example.
Import Toy.

Lemma hits_plus_misses_count_verifications_witness :
  let calls := earlier_calls
                 ++ [CallVerifySig key0 sig0 msg_bad; CallClear;
                     CallVerifySig key0 (replicate 63 Byte.x01) msg_bad;
                     CallVerifySig key0 sig0 msg_bad] in
  counted calls = 3
  ∧ gVerifyCacheHit (run calls) + gVerifyCacheMiss (run calls) = counted calls.
Proof.
  intros calls. split; [reflexivity|].
  assert (Z.of_nat (length calls) < 2 ^ 64) as Hlen by reflexivity.
  exact (proj1 (hits_plus_misses_count_verifications calls Hlen)).
Defined.

End counting_example.

(** ** More on the hash of a [uint256] *)

Lemma byte_to_Z_inj (a b : byte) : byte_to_Z a = byte_to_Z b → a = b.
Proof.
  unfold byte_to_Z. intros E. apply N2Z.inj in E.
  assert (Some a = Some b) as [= ->]; [|done].
  by rewrite <- (Byte.of_to_N a), <- (Byte.of_to_N b), E.
Qed.

(** X10.  The hash of a 32-byte [uint256] is below 2^32, and two such
    values have the same hash exactly when their first four bytes are the
    same. *)
Theorem hash_uint256_iff_first_four_bytes (x y : bytes) :
  length x = 32%nat → length y = 32%nat →
  0 <= HashOfHash.hash_uint256 x < 2 ^ 32
  ∧ (HashOfHash.hash_uint256 x = HashOfHash.hash_uint256 y
     ↔ take 4 x = take 4 y).
Proof.
  intros Hx Hy.
  destruct x as [|a0 [|a1 [|a2 [|a3 x]]]]; try (simpl in Hx; lia).
  destruct y as [|b0 [|b1 [|b2 [|b3 y]]]]; try (simpl in Hy; lia).
  rewrite !hash_uint256_closed_form. unfold HashOfHash.at_. cbn [nth take].
  pose proof (byte_to_Z_range a0). pose proof (byte_to_Z_range a1).
  pose proof (byte_to_Z_range a2). pose proof (byte_to_Z_range a3).
  pose proof (byte_to_Z_range b0). pose proof (byte_to_Z_range b1).
  pose proof (byte_to_Z_range b2). pose proof (byte_to_Z_range b3).
  split; [lia|]. split.
  - intros E.
    assert (byte_to_Z a0 = byte_to_Z b0 ∧ byte_to_Z a1 = byte_to_Z b1
            ∧ byte_to_Z a2 = byte_to_Z b2 ∧ byte_to_Z a3 = byte_to_Z b3)
      as (E0 & E1 & E2 & E3) by lia.
    by rewrite (byte_to_Z_inj _ _ E0), (byte_to_Z_inj _ _ E1),
      (byte_to_Z_inj _ _ E2), (byte_to_Z_inj _ _ E3).
  - by intros [= -> -> -> ->].
Qed.

Lemma hash_uint256_iff_first_four_bytes_witness :
  let x := [Byte.x01; Byte.x02; Byte.x03; Byte.x04] ++ replicate 28 Byte.x00 in
  let y := [Byte.x01; Byte.x02; Byte.x03; Byte.x05] ++ replicate 28 Byte.x00 in
  HashOfHash.hash_uint256 x ≠ HashOfHash.hash_uint256 y.
Proof.
  intros x y E.
  apply (proj2 (hash_uint256_iff_first_four_bytes x y eq_refl eq_refl)) in E.
  discriminate E.
Defined.

(** ** What the key dump prints *)

Lemma string_app_assoc (s t u : string) : (s +:+ t) +:+ u = s +:+ (t +:+ u).
Proof.
  induction s as [|c s IH]; [done|].
  change (String c ((s +:+ t) +:+ u) = String c (s +:+ (t +:+ u))).
  by rewrite IH.
Qed.

Lemma string_app_nil_r (s : string) : s +:+ EmptyString = s.
Proof.
  induction s as [|c s IH]; [done|].
  change (String c (s +:+ EmptyString) = String c s). by rewrite IH.
Qed.

Lemma appends_out (x : string) : appends (out x).
Proof. by exists (Ret tt), x. Qed.

Lemma appends_lift {A} (o : outcome A) : appends (lift o).
Proof. exists o, EmptyString. intros s. by rewrite string_app_nil_r. Qed.

Lemma appends_ret {A} (a : A) : appends (mret a).
Proof. exists (Ret a), EmptyString. intros s. by rewrite string_app_nil_r. Qed.

Lemma appends_bind {A B} (m : M ostream A) (k : A → M ostream B) :
  appends m → (∀ a, appends (k a)) → appends (m ≫= k).
Proof.
  intros (r & t & Hm) Hk. unfold mbind, M_bind. destruct r as [a|e].
  - destruct (Hk a) as (r' & t' & Hk'). exists r', (t +:+ t').
    intros s. by rewrite Hm, Hk', string_app_assoc.
  - exists (Throw e), t. intros s. by rewrite Hm.
Qed.

Lemma appends_try_catch_all (body : M ostream unit) :
  appends body → appends (try_catch_all body).
Proof.
  intros (r & t & Hm). unfold try_catch_all. destruct r as [a|e].
  - exists (Ret true), t. intros s. by rewrite Hm.
  - exists (Ret false), t. intros s. by rewrite Hm.
Qed.

Section KeyDumpOutput.
Context `{Sodium} `{Codec}.

Lemma appends_logPublicKey pk : appends (logPublicKey pk).
Proof.
  unfold logPublicKey.
  repeat (apply appends_bind; [apply appends_out | intros _]).
  apply appends_out.
Qed.

Lemma appends_logSecretKey sk : appends (logSecretKey sk).
Proof.
  unfold logSecretKey.
  repeat (apply appends_bind; [apply appends_out | intros _]).
  apply appends_bind; [apply appends_lift | intros v].
  repeat (apply appends_bind; [apply appends_out | intros _]).
  apply appends_bind; [apply appends_lift | intros pk].
  apply appends_logPublicKey.
Qed.

Lemma appends_logKey key : appends (logKey key).
Proof.
  unfold logKey.
  apply appends_bind.
  { apply appends_try_catch_all. unfold logKey_hex.
    apply appends_bind; [apply appends_lift | intros data].
    apply appends_bind; [apply appends_logPublicKey | intros _].
    apply appends_bind; [apply appends_lift | intros sk].
    apply appends_logSecretKey. }
  intros [|]; [apply appends_ret|].
  apply appends_bind.
  { apply appends_try_catch_all. unfold logKey_public.
    apply appends_bind; [apply appends_lift | intros pk].
    apply appends_logPublicKey. }
  intros [|]; [apply appends_ret|].
  apply appends_bind.
  { apply appends_try_catch_all. unfold logKey_seed.
    apply appends_bind; [apply appends_lift | intros sk].
    apply appends_logSecretKey. }
  intros [|]; [apply appends_ret|].
  apply appends_bind; [apply appends_out | intros _]. apply appends_out.
Qed.

Lemma logPublicKey_run pk s :
  logPublicKey pk s = (Ret tt, s +:+ publicKey_text pk).
Proof.
  unfold logPublicKey, publicKey_text, out, modify, mbind, M_bind.
  by rewrite !string_app_assoc.
Qed.

End KeyDumpOutput.

(** X11.  [logKey] only appends to the stream it is given: what the stream
    held stays in front, and the text added depends on the key alone, not
    on the stream. *)
Theorem logKey_only_appends `{Sodium} `{Codec} (key : string) :
  ∃ text, ∀ s, logKey key s = (Ret tt, s +:+ text).
Proof.
  destruct (appends_logKey key) as (r & text & Hrun).
  exists text. intros s. rewrite Hrun. f_equal.
  specialize (Hrun EmptyString). rewrite logKey_cases in Hrun.
  destruct (logKey_hex key _) as [[?|?] s1]; [by injection Hrun|].
  destruct (logKey_public key s1) as [[?|?] s2]; [by injection Hrun|].
  destruct (logKey_seed key s2) as [[?|?] s3]; by injection Hrun.
Qed.

(** X12.  For a key that [hexToBin256] reads as 32 bytes (and the
    primitive reporting success), [logKey] prints those bytes as a public
    key, then as a seed: the seed in its encoded form, and the public key
    derived from it. *)
Theorem logKey_hex_prints_both_readings `{Sodium} `{Codec}
    (key : string) (data : bytes) (s : ostream) :
  hexToBin256 key = Ret data →
  length data = 32%nat →
  seed_keypair_status data = 0 →
  sk_to_seed_status (data ++ ed25519_pk_of_seed data) = 0 →
  sk_to_pk_status (data ++ ed25519_pk_of_seed data) = 0 →
  logKey key s
  = (Ret tt,
     s +:+ publicKey_text (mkPublicKey PUBLIC_KEY_TYPE_ED25519 data)
       +:+ "Seed:" +:+ endl
       +:+ "  psrKey: " +:+ psrKey_toPsrKey PSRKEY_SEED_ED25519 data +:+ endl
       +:+ publicKey_text
             (mkPublicKey PUBLIC_KEY_TYPE_ED25519
                          (take 32 (ed25519_pk_of_seed data)))).
Proof.
  intros Hhex Hlen Hrc Hseed Hpk. rewrite logKey_cases.
  assert (logKey_hex key s
          = (Ret tt,
             s +:+ publicKey_text (mkPublicKey PUBLIC_KEY_TYPE_ED25519 data)
               +:+ "Seed:" +:+ endl
               +:+ "  psrKey: " +:+ psrKey_toPsrKey PSRKEY_SEED_ED25519 data
               +:+ endl
               +:+ publicKey_text
                     (mkPublicKey PUBLIC_KEY_TYPE_ED25519
                                  (take 32 (ed25519_pk_of_seed data)))))
    as ->; [|done].
  unfold logKey_hex, lift. unfold mbind at 1, M_bind at 1. rewrite Hhex.
  unfold mbind at 1, M_bind at 1. rewrite logPublicKey_run.
  unfold mbind at 1, M_bind at 1. rewrite fromSeed_ok by done.
  unfold logSecretKey, getPsrKeySeed, getSeed, getPublicKey,
    crypto_sign_ed25519_sk_to_seed, crypto_sign_ed25519_sk_to_pk, lift, out,
    modify.
  cbn [mSecretKey mKeyType].
  rewrite !decide_False by lia. cbn [obind mSeed].
  rewrite take_app_length', drop_app_length' by done.
  unfold mbind, M_bind. rewrite logPublicKey_run.
  by rewrite !string_app_assoc.
Qed.

Section logKey_output_example.
Import Toy Toy2.

Lemma logKey_hex_prints_both_readings_witness :
  logKey "ABCCCCCCCCCCCCCCCCCCCCCCCCCCCCCC" "log: "
  = (Ret tt,
     "log: " +:+ "PublicKey:" +:+ endl
       +:+ "  psrKey: ABCCCCCCCCCCCCCCCCCCCCCCCCCCCCCC" +:+ endl
       +:+ "  hex: ABCCCCCCCCCCCCCCCCCCCCCCCCCCCCCC" +:+ endl
       +:+ "Seed:" +:+ endl
       +:+ "  psrKey: ABCCCCCCCCCCCCCCCCCCCCCCCCCCCCCC" +:+ endl
       +:+ "PublicKey:" +:+ endl
       +:+ "  psrKey: CCCCCCCCCCCCCCCCCCCCCCCCCCCCCCBA" +:+ endl
       +:+ "  hex: CCCCCCCCCCCCCCCCCCCCCCCCCCCCCCBA" +:+ endl).
Proof.
  exact (logKey_hex_prints_both_readings
           "ABCCCCCCCCCCCCCCCCCCCCCCCCCCCCCC" seed1 "log: "
           eq_refl eq_refl eq_refl eq_refl eq_refl).
Defined.

End logKey_output_example.

(** ** Signing *)

(** X13.  [sign] throws exactly when the primitive reports a failure;
    otherwise it returns a signature of exactly 64 bytes, the primitive's
    own when that has 64 bytes, so [verifySig] never turns a signature made
    by [sign] away for its length: it goes on to consult the cache. *)
Theorem sign_returns_64_bytes `{SodiumSign} `{Sodium} `{Digest}
    (sk : SecretKey) (bin : bytes) :
  (sign sk bin = Throw (runtime_error "error while signing")
   ↔ sign_status bin (mSecretKey sk) ≠ 0)
  ∧ (∀ signature, sign sk bin = Ret signature →
       sign_status bin (mSecretKey sk) = 0
       ∧ length signature = 64%nat
       ∧ (length (ed25519_sign bin (mSecretKey sk)) = 64%nat →
          signature = ed25519_sign bin (mSecretKey sk))
       ∧ ∀ key g,
           mkAccess VerifySigCache true
           ∈ gAccesses (verifySig key signature bin g).2).
Proof.
  unfold sign, crypto_sign_detached, crypto_sign_BYTES. split.
  - case_decide; split; done.
  - intros signature. case_decide as Hrc; [done|]. intros [= <-].
    assert (length (take 64 (ed25519_sign bin (mSecretKey sk))
                      ++ drop (length (take 64 (ed25519_sign bin (mSecretKey sk))))
                              (replicate 64 Byte.x00)) = 64%nat) as Hlen.
    { rewrite length_app, length_drop, length_replicate, length_take. lia. }
    split_and!.
    + destruct (decide (sign_status bin (mSecretKey sk) = 0)); [done|].
      by destruct Hrc.
    + exact Hlen.
    + intros H64. rewrite take_ge by lia. rewrite H64.
      cbn [drop]. apply app_nil_r.
    + intros key g. rewrite verifySig_run by exact Hlen. cbv zeta.
      destruct (cache.find _ _); cbn [snd gAccesses];
        apply elem_of_app; right; apply elem_of_app; right;
        apply list_elem_of_here.
Qed.

(** ** Runs *)

(** X14.  A [verifySig] call that is turned away for the length of its
    signature leaves no trace: a run leaves the statics it would leave
    without those calls. *)
Theorem rejected_calls_leave_no_trace `{Sodium} `{Digest} (calls : list call) :
  run calls = run (filter (λ c, well_sized c = true) calls).
Proof.
  induction calls as [|c calls IH] using rev_ind; [done|].
  rewrite filter_app, run_snoc. rewrite filter_cons, filter_nil.
  destruct (well_sized c) eqn:Hc.
  - rewrite decide_True by done. by rewrite run_snoc, IH.
  - rewrite decide_False by done. rewrite app_nil_r, <- IH.
    destruct c as [key signature bin| |]; try done. cbn [exec].
    apply bool_decide_eq_false in Hc. by rewrite verifySig_wrong_length.
Qed.

Lemma elem_of_hashed `{Sodium} `{Digest} (calls : list call) (x : bytes) :
  x ∈ hashed calls →
  ∃ key signature bin,
    CallVerifySig key signature bin ∈ calls
    ∧ length signature = 64%nat
    ∧ x = preimage key signature bin.
Proof.
  unfold hashed. rewrite list_elem_of_omap.
  intros ([key signature bin| |] & Hin & Hx); try done.
  case_decide; [|done]. injection Hx as <-.
  exists key, signature, bin. by split_and!.
Qed.

(** X15.  Every entry of the cache of a run (with 32-byte public keys) was
    put there by a call of the run: its key is the digest of the input of
    a [verifySig] call with a 64-byte signature, and its value is the
    verdict of the primitive on that input. *)
Theorem cache_holds_verdicts_of_calls `{Sodium} `{Digest}
    (calls : list call) (d : bytes) (b : bool) :
  Forall well_formed calls →
  cache.find d (cache.items (gVerifySigCache (run calls))) = Some b →
  ∃ key signature bin,
    CallVerifySig key signature bin ∈ calls
    ∧ length signature = 64%nat
    ∧ digest_of key signature bin = d
    ∧ verifyDetached key signature bin = b.
Proof.
  intros Hwf Hfind. apply find_Some_elem in Hfind.
  destruct (run_coherent calls Hwf d b Hfind)
    as (key & signature & bin & Hkey & Hlen & Hin & Hd & Hb).
  apply elem_of_hashed in Hin as (key' & signature' & bin' & Hc & Hlen' & E).
  rewrite Forall_forall in Hwf. pose proof (Hwf _ Hc) as Hkey'. simpl in Hkey'.
  apply preimage_inj in E as (Ek & -> & ->); [|done..].
  exists key', signature', bin'. split_and!; [done | done | |].
  - rewrite <- Hd. unfold digest_of, preimage. by rewrite Ek.
  - rewrite <- Hb. unfold verifyDetached. by rewrite Ek.
Qed.

Section cache_entries_example.
Import Toy.

Lemma cache_holds_verdicts_of_calls_witness :
  ∃ key signature bin,
    CallVerifySig key signature bin ∈ earlier_calls
    ∧ length signature = 64%nat
    ∧ digest_of key signature bin = digest_of key0 sig0 msg_bad
    ∧ verifyDetached key signature bin = false.
Proof.
  apply (cache_holds_verdicts_of_calls earlier_calls).
  - by repeat constructor.
  - reflexivity.
Defined.

End cache_entries_example.
